(** * PARL, examples/PPO/train.py: rollout, batch collection and training loop

    A shallow embedding of the PPO example script.  The script is glue code
    around three collaborators (a gym environment, a PARL agent and the
    observation scaler of [utils]); they appear here as interfaces, and the
    script's own functions are written in a small monad that threads the
    collaborators' state, records every call made to them, and propagates
    Python exceptions and non-termination.

    The arithmetic of the script is a parameter as well: the program is
    written over a class of float operations, which is read in exact
    arithmetic (the rationals) where a statement is about the mathematics,
    and in IEEE binary64 (the primitive floats) where it is about the values
    the script computes. *)

From Stdlib Require Import List NArith ZArith Lia Bool Arith.
From Stdlib Require Import QArith Qcanon Field.
From Stdlib Require Import Floats.
Import ListNotations.
Close Scope Qc_scope.
Close Scope Q_scope.

Set Implicit Arguments.

(** ** Outcomes of Python code *)

(** The exceptions the script can raise by itself (NumPy shape and index
    errors, integer modulo by zero) or through [action_mapping]. *)
Inductive PyError : Type :=
| ValueError
| IndexError
| ZeroDivisionError
| AssertionError.

(** [Diverge] stands for a loop that has used up its fuel. *)
Inductive Outcome (A : Type) : Type :=
| Ok (a : A)
| Raise (e : PyError)
| Diverge.

Arguments Ok {A} a.
Arguments Raise {A} e.
Arguments Diverge {A}.

Definition is_ok {A} (o : Outcome A) : bool :=
  match o with Ok _ => true | _ => false end.

(** ** Floating-point scalars

    The script computes with Python floats and NumPy arrays of floats.  The
    operations it uses are gathered in a class, so that the program is written
    once and read either in exact arithmetic or in IEEE binary64. *)
Class Float (F : Type) : Type := {
  f0 : F;                         (* 0.0 *)
  f1 : F;                         (* 1.0 *)
  fadd : F -> F -> F;
  fsub : F -> F -> F;
  fmul : F -> F -> F;
  fdiv : F -> F -> F;
  fltb : F -> F -> bool;          (* x < y *)
  f_of_Z : Z -> F;                (* float(n) *)
  f32 : F -> F;                   (* astype('float32') *)
  lit_1em3 : F;                   (* 1e-3 *)
  lit_1em6 : F                    (* 1e-6 *)
}.

(** [sqrt] is only needed by [ndarray.std]. *)
Class FloatSqrt (F : Type) : Type := { fsqrt : F -> F }.

Declare Scope fl_scope.
Delimit Scope fl_scope with fl.
Infix "+^" := fadd (at level 50, left associativity) : fl_scope.
Infix "-^" := fsub (at level 50, left associativity) : fl_scope.
Infix "*^" := fmul (at level 40, left associativity) : fl_scope.
Infix "/^" := fdiv (at level 40, left associativity) : fl_scope.
Local Open Scope fl_scope.

(** The type NumPy gives to an operation between a float32 scalar and a
    Python number depends on its version: up to NumPy 1.x the Python number
    counts as a float64 or an int64 and the result is a float64; from
    NumPy 2 on (NEP 50) the Python number adapts and the result is a
    float32.  The script meets the rule once, where it divides the
    float32 sum of the rewards by [args.episodes_per_batch] for the log. *)
Class ScalarPromotion : Type := { nep50 : bool }.

(** ** The NumPy operations of the script

    A one-dimensional array, and a row of shape (1, n), is a [list F]; a
    two-dimensional array is the list of its rows. *)
Module NumPy.
Section Arrays.
Context {F : Type} `{Float F}.

(** [np.append(obs.reshape((1, -1)), [[step]], axis=1)] *)
Definition np_append (obs : list F) (step : F) : list F := obs ++ [step].

(** [a[-1] = x] on a one-dimensional array: IndexError when it is empty. *)
Definition set_last (a : list F) (x : F) : Outcome (list F) :=
  match a with
  | [] => Raise IndexError
  | _ :: _ => Ok (removelast a ++ [x])
  end.

Fixpoint zip_with (op : F -> F -> F) (a b : list F) : list F :=
  match a, b with
  | x :: a', y :: b' => op x y :: zip_with op a' b'
  | _, _ => []
  end.

(** An elementwise operation between a row of shape (1, n) and an array of
    shape (m,), with NumPy's broadcasting: the lengths agree, or one of
    them is 1; otherwise ValueError. *)
Definition broadcast (op : F -> F -> F) (row v : list F) : Outcome (list F) :=
  if Nat.eqb (length row) (length v) then Ok (zip_with op row v)
  else match row, v with
       | [x], _ => Ok (map (op x) v)
       | _, [y] => Ok (map (fun x => op x y) row)
       | _, _ => Raise ValueError
       end.

(** The literal [-1.0]. *)
Definition neg_one : F := f0 -^ f1.

(** [np.clip(a, lo, hi)], that is [minimum(maximum(a, lo), hi)]. *)
Definition clip1 (lo hi x : F) : F :=
  let m := if fltb x lo then lo else x in
  if fltb hi m then hi else m.

Definition np_clip (a : list F) (lo hi : F) : list F := map (clip1 lo hi) a.

Definition astype_float32 (a : list F) : list F := map f32 a.

Definition same_width (rows : list (list F)) : bool :=
  match rows with
  | [] => true
  | r :: rs => forallb (fun r' => Nat.eqb (length r') (length r)) rs
  end.

(** [np.concatenate] of two-dimensional arrays along axis 0: ValueError on
    an empty list of arrays and on arrays of different widths. *)
Definition np_concatenate (arrays : list (list (list F))) : Outcome (list (list F)) :=
  match arrays with
  | [] => Raise ValueError
  | _ :: _ =>
      let rows := concat arrays in
      if same_width rows then Ok rows else Raise ValueError
  end.

(** [np.concatenate] of one-dimensional arrays. *)
Definition np_concatenate1 (arrays : list (list F)) : Outcome (list F) :=
  match arrays with
  | [] => Raise ValueError
  | _ :: _ => Ok (concat arrays)
  end.

(** *** Sums

    [np.add.reduce] over a contiguous one-dimensional array, which [np.sum],
    [ndarray.mean] and [ndarray.std] come down to, does not add from left to
    right: its inner loop is NumPy's pairwise summation.  [add] is the
    addition of the array's type: [fadd] for a float64 array, [fadd]
    followed by the rounding to float32 for a float32 array. *)

(** Fewer than 8 entries: from left to right, starting from zero. *)
Definition sum_small (add : F -> F -> F) (a : list F) : F :=
  fold_left add a f0.

(** [k] more blocks of 8 entries added into the 8 accumulators [r],
    accumulator by accumulator. *)
Fixpoint add_blocks (add : F -> F -> F) (r a : list F) (k : nat) : list F :=
  match k with
  | O => r
  | S k' => add_blocks add (zip_with add r (firstn 8 a)) (skipn 8 a) k'
  end.

(** From 8 to 128 entries: 8 accumulators take the entries of the same
    index modulo 8 over the full blocks of 8, they are added in pairs, and
    the entries left over are added from left to right. *)
Definition sum_block (add : F -> F -> F) (a : list F) : F :=
  let n := length a in
  let r := add_blocks add (firstn 8 a) (skipn 8 a) (n / 8 - 1) in
  let res :=
    add (add (add (nth 0 r f0) (nth 1 r f0)) (add (nth 2 r f0) (nth 3 r f0)))
        (add (add (nth 4 r f0) (nth 5 r f0)) (add (nth 6 r f0) (nth 7 r f0)))
  in
  fold_left add (skipn (n - n mod 8) a) res.

(** More than 128 entries: the array is cut in two near the middle, at a
    multiple of 8, and the sums of the two parts are added.  The recursion
    is on [fuel]; the length of the array is always enough. *)
Fixpoint pairwise_sum (add : F -> F -> F) (fuel : nat) (a : list F) : F :=
  let n := length a in
  if Nat.ltb n 8 then sum_small add a
  else if Nat.leb n 128 then sum_block add a
  else match fuel with
       | O => sum_block add a
       | S fuel' =>
           let n2 := n / 2 - (n / 2) mod 8 in
           add (pairwise_sum add fuel' (firstn n2 a))
               (pairwise_sum add fuel' (skipn n2 a))
       end.

(** The reduction: the result starts as the identity 0 of the addition and
    the pairwise sum of the array is added to it. *)
Definition np_sum_with (add : F -> F -> F) (a : list F) : F :=
  add f0 (pairwise_sum add (length a) a).

(** [np.sum] of a float64 array, or of a list of Python floats. *)
Definition np_sum (a : list F) : F := np_sum_with fadd a.

(** [np.sum] of a float32 array: every addition is a float32 addition,
    that is the binary64 sum of the two float32 values rounded to float32
    (binary64 has more than twice the precision of float32, so that
    rounding twice is rounding once). *)
Definition np_sum_float32 (a : list F) : F :=
  np_sum_with (fun x y => f32 (x +^ y)) a.

(** [x / n] for the float32 scalar [x] and the Python int [n]: a binary64
    division up to NumPy 1.x, a float32 division from NumPy 2 on. *)
Definition float32_div_int `{ScalarPromotion} (x : F) (n : Z) : F :=
  if nep50 then f32 (x /^ f32 (f_of_Z n)) else x /^ f_of_Z n.

(** [a.mean()] *)
Definition np_mean (a : list F) : F :=
  np_sum a /^ f_of_Z (Z.of_nat (length a)).

(** [a.std()]: the square root of the mean squared deviation. *)
Definition np_std `{FloatSqrt F} (a : list F) : F :=
  let m := np_mean a in
  fsqrt (np_mean (map (fun x => (x -^ m) *^ (x -^ m)) a)).

End Arrays.
End NumPy.
Import NumPy.

(** ** The collaborators

    The environment, the agent and the scaler are objects with hidden,
    mutable state (simulator state, network weights, random generators,
    running statistics).  A method is a function of that state which returns
    its result together with the new state. *)

(** A gym environment: [reset()], [step(action)] returning the observation,
    the reward and the done flag, and the bounds [action_space.low[0]] and
    [action_space.high[0]]. *)
Class GymEnv (F Env : Type) : Type := {
  env_reset : Env -> list F * Env;
  env_step : Env -> list F -> (list F * F * bool) * Env;
  action_low : Env -> F;
  action_high : Env -> F
}.

(** The agent of the example ([MujocoAgent]). *)
Class PolicyAgent (F Agent : Type) : Type := {
  policy_sample : Agent -> list F -> list F * Agent;
  policy_predict : Agent -> list F -> list F * Agent;
  value_predict : Agent -> list (list F) -> list F * Agent;
  policy_learn :
    Agent -> list (list F) -> list (list F) -> list F -> (F * F) * Agent;
  value_learn : Agent -> list (list F) -> list F -> F * Agent
}.

(** What the script imports from [utils] and [parl.utils]: the scaler, the
    two estimators and the action rescaling.  [scaler_get] returns the pair
    (scale, offset).  The script then stores into the two arrays it was
    given; when [get] hands out an array the scaler keeps, the store reaches
    the scaler, and [scaler_stored] is the scaler after the stores, given
    the arrays as the script left them (the identity for a scaler whose
    [get] returns fresh arrays).  The arrays of the scaler and the results
    of the two estimators are float64 arrays, as [utils] builds them
    (NumPy arrays of zeros, and the output of a filter with float64
    coefficients). *)
Class Utils (F Scaler : Type) : Type := {
  scaler_get : Scaler -> list F * list F;
  scaler_stored : Scaler -> list F -> list F -> Scaler;
  scaler_update : Scaler -> list (list F) -> Scaler;
  action_mapping : list F -> F -> F -> Outcome (list F);
  calc_discount_sum_rewards : list F -> F -> list F;
  calc_gae : list F -> list F -> F -> F -> list F
}.

(** The command line of the script, as far as [main] reads it. *)
Record Args (F : Type) : Type := {
  num_episodes : Z;
  gamma : F;
  lam : F;
  episodes_per_batch : Z
}.

Section Script.
Context {F : Type} {FL : Float F} {FS : FloatSqrt F} {SP : ScalarPromotion}.
Context {Env Agent Scaler : Type}.
Context {GE : GymEnv F Env} {PA : PolicyAgent F Agent} {UT : Utils F Scaler}.

(** ** Calls to the collaborators, as the script makes them *)
Inductive Event : Type :=
| EvReset
| EvStep (action : list F)
| EvScalerGet
| EvScalerUpdate (x : list (list F))
| EvPolicySample (obs : list F)
| EvPolicyPredict (obs : list F)
| EvValuePredict (obs : list (list F))
| EvPolicyLearn (obs actions : list (list F)) (advantages : list F)
| EvValueLearn (obs : list (list F)) (discount_sum_rewards : list F)
| EvLogTrain (episode : Z) (train_reward policy_loss kl value_loss : F)
| EvLogEval (episode : Z) (eval_reward : F).

Record World : Type := {
  w_env : Env;
  w_agent : Agent;
  w_scaler : Scaler;
  w_trace : list Event            (* oldest call first *)
}.

(** ** The monad of the script *)
Definition M (A : Type) : Type := World -> Outcome A * World.

Definition ret {A} (a : A) : M A := fun w => (Ok a, w).

Definition bind {A B} (m : M A) (k : A -> M B) : M B :=
  fun w =>
    match m w with
    | (Ok a, w') => k a w'
    | (Raise e, w') => (Raise e, w')
    | (Diverge, w') => (Diverge, w')
    end.

Definition lift {A} (o : Outcome A) : M A := fun w => (o, w).

Definition emit (e : Event) (w : World) : World :=
  {| w_env := w_env w; w_agent := w_agent w; w_scaler := w_scaler w;
     w_trace := w_trace w ++ [e] |}.

Notation "x <- m ;; k" := (bind m (fun x => k))
  (at level 61, m at next level, right associativity).
Notation "' pat <- m ;; k" := (bind m (fun x => match x with pat => k end))
  (at level 61, pat pattern, m at next level, right associativity).

Definition call_env_reset : M (list F) := fun w =>
  let (obs, e) := env_reset (w_env w) in
  (Ok obs, emit EvReset
     {| w_env := e; w_agent := w_agent w; w_scaler := w_scaler w;
        w_trace := w_trace w |}).

Definition call_env_step (action : list F) : M (list F * F * bool) := fun w =>
  let (r, e) := env_step (w_env w) action in
  (Ok r, emit (EvStep action)
     {| w_env := e; w_agent := w_agent w; w_scaler := w_scaler w;
        w_trace := w_trace w |}).

Definition call_agent {A} (method : Agent -> A * Agent) (ev : Event) : M A :=
  fun w =>
    let (r, a) := method (w_agent w) in
    (Ok r, emit ev
       {| w_env := w_env w; w_agent := a; w_scaler := w_scaler w;
          w_trace := w_trace w |}).

Definition call_scaler_get : M (list F * list F) := fun w =>
  (Ok (scaler_get (w_scaler w)), emit EvScalerGet w).

Definition call_scaler_update (x : list (list F)) : M unit := fun w =>
  (Ok tt, emit (EvScalerUpdate x)
     {| w_env := w_env w; w_agent := w_agent w;
        w_scaler := scaler_update (w_scaler w) x; w_trace := w_trace w |}).

Definition store_scaler_arrays (scale offset : list F) : M unit := fun w =>
  (Ok tt, {| w_env := w_env w; w_agent := w_agent w;
             w_scaler := scaler_stored (w_scaler w) scale offset;
             w_trace := w_trace w |}).

Definition log_info (e : Event) : M unit := fun w => (Ok tt, emit e w).

Definition env_bounds : M (F * F) := fun w =>
  (Ok (action_low (w_env w), action_high (w_env w)), w).

(** [while cond: body], on the local variables [L] of the function. *)
Fixpoint while {L} (cond : L -> bool) (body : L -> M L) (fuel : nat) (l : L)
  : M L :=
  if cond l then
    match fuel with
    | O => lift Diverge
    | S fuel' => l' <- body l ;; while cond body fuel' l'
    end
  else ret l.

(** [while True: body; if done: break] *)
Fixpoint loop_until_break {L} (body : L -> M (L * bool)) (fuel : nat) (l : L)
  : M L :=
  match fuel with
  | O => lift Diverge
  | S fuel' =>
      '(l', stop) <- body l ;;
      if (stop : bool) then ret l' else loop_until_break body fuel' l'
  end.

(** [for e in range(n): body] *)
Fixpoint for_range {L} (body : L -> M L) (n : nat) (l : L) : M L :=
  match n with
  | O => ret l
  | S n' => l' <- body l ;; for_range body n' l'
  end.

(** ** train.py *)

(** Lines 30-32 and 61-63:
    [scale, offset = scaler.get(); scale[-1] = 1.0; offset[-1] = 0.0] *)
Definition get_scale_offset : M (list F * list F) :=
  '(scale, offset) <- call_scaler_get ;;
  scale <- lift (set_last scale f1) ;;
  offset <- lift (set_last offset f0) ;;
  _ <- store_scaler_arrays scale offset ;;
  ret (scale, offset).

(** Lines 37 and 67: [(obs - offset) * scale] *)
Definition centre_and_scale (scale offset obs : list F) : Outcome (list F) :=
  match broadcast fsub obs offset with
  | Ok centred => broadcast fmul centred scale
  | Raise e => Raise e
  | Diverge => Diverge
  end.

(** Lines 37-38 and 67-68:
    [obs = (obs - offset) * scale; obs = obs.astype('float32')] *)
Definition normalize (scale offset obs : list F) : Outcome (list F) :=
  match centre_and_scale scale offset obs with
  | Ok scaled => Ok (astype_float32 scaled)
  | Raise e => Raise e
  | Diverge => Diverge
  end.

(** The local variables of [run_train_episode]. *)
Record TrainLocals : Type := {
  t_obs : list F;
  t_done : bool;
  t_step : F;
  t_observes : list (list F);
  t_actions : list (list F);
  t_rewards : list F;
  t_unscaled_obs : list (list F)
}.

(** Lines 34-51, the body of [while not done]. *)
Definition train_body (scale offset : list F) (l : TrainLocals) : M TrainLocals :=
  let obs := np_append (t_obs l) (t_step l) in
  let unscaled_obs := t_unscaled_obs l ++ [obs] in
  obs <- lift (normalize scale offset obs) ;;
  let observes := t_observes l ++ [obs] in
  action <- call_agent (fun a => policy_sample a obs) (EvPolicySample obs) ;;
  let action := np_clip action neg_one f1 in
  '(low, high) <- env_bounds ;;
  action <- lift (action_mapping action low high) ;;
  let action := astype_float32 action in
  let actions := t_actions l ++ [action] in
  '(obs, reward, done) <- call_env_step action ;;
  let rewards := t_rewards l ++ [reward] in
  let step := t_step l +^ lit_1em3 in
  ret {| t_obs := obs; t_done := done; t_step := step;
         t_observes := observes; t_actions := actions;
         t_rewards := rewards; t_unscaled_obs := unscaled_obs |}.

Definition run_train_episode (fuel : nat)
  : M (list (list F) * list (list F) * list F * list (list F)) :=
  obs <- call_env_reset ;;
  '(scale, offset) <- get_scale_offset ;;
  l <- while (fun l => negb (t_done l)) (train_body scale offset) fuel
         {| t_obs := obs; t_done := false; t_step := f0;
            t_observes := []; t_actions := []; t_rewards := [];
            t_unscaled_obs := [] |} ;;
  observes <- lift (np_concatenate (map (fun r => [r]) (t_observes l))) ;;
  actions <- lift (np_concatenate (map (fun r => [r]) (t_actions l))) ;;
  let rewards := astype_float32 (t_rewards l) in
  unscaled_obs <-
    lift (np_concatenate (map (fun r => [r]) (t_unscaled_obs l))) ;;
  ret (observes, actions, rewards, unscaled_obs).

(** The local variables of [run_evaluate_episode]. *)
Record EvalLocals : Type := {
  e_obs : list F;
  e_step : F;
  e_rewards : list F
}.

(** Lines 65-79, the body of [while True], with its [break]. *)
Definition evaluate_body (scale offset : list F) (l : EvalLocals)
  : M (EvalLocals * bool) :=
  let obs := np_append (e_obs l) (e_step l) in
  obs <- lift (normalize scale offset obs) ;;
  action <- call_agent (fun a => policy_predict a obs) (EvPolicyPredict obs) ;;
  '(low, high) <- env_bounds ;;
  action <- lift (action_mapping action low high) ;;
  '(obs, reward, done) <- call_env_step action ;;
  let rewards := e_rewards l ++ [reward] in
  let step := e_step l +^ lit_1em3 in
  ret ({| e_obs := obs; e_step := step; e_rewards := rewards |}, done).

Definition run_evaluate_episode (fuel : nat) : M F :=
  obs <- call_env_reset ;;
  '(scale, offset) <- get_scale_offset ;;
  l <- loop_until_break (evaluate_body scale offset) fuel
         {| e_obs := obs; e_step := f0; e_rewards := [] |} ;;
  ret (np_sum (e_rewards l)).

(** The local variables of [collect_trajectories]. *)
Record CollectLocals : Type := {
  all_obs : list (list (list F));
  all_actions : list (list (list F));
  all_rewards : list (list F);
  all_unscaled_obs : list (list (list F))
}.

(** Lines 86-91, the body of [for e in range(episodes)]. *)
Definition collect_body (fuel : nat) (l : CollectLocals) : M CollectLocals :=
  '(obs, actions, rewards, unscaled_obs) <- run_train_episode fuel ;;
  ret {| all_obs := all_obs l ++ [obs];
         all_actions := all_actions l ++ [actions];
         all_rewards := all_rewards l ++ [rewards];
         all_unscaled_obs := all_unscaled_obs l ++ [unscaled_obs] |}.

Definition collect_trajectories (fuel : nat) (episodes : Z)
  : M (list (list F) * list (list F) * list F) :=
  l <- for_range (collect_body fuel) (Z.to_nat episodes)
         {| all_obs := []; all_actions := []; all_rewards := [];
            all_unscaled_obs := [] |} ;;
  x <- lift (np_concatenate (all_unscaled_obs l)) ;;
  _ <- call_scaler_update x ;;
  obs <- lift (np_concatenate (all_obs l)) ;;
  actions <- lift (np_concatenate (all_actions l)) ;;
  rewards <- lift (np_concatenate1 (all_rewards l)) ;;
  ret (obs, actions, rewards).

(** Line 129: [scale_rewards = rewards * (1 - args.gamma)], where [rewards]
    is a float32 array and [1 - args.gamma] a Python float: NumPy casts the
    scalar to float32 and multiplies in float32.  (The product of two
    float32 values is exact in binary64, so that rounding it to float32 is
    the float32 multiplication.) *)
Definition scale_rewards (args : Args F) (rewards : list F) : list F :=
  map (fun r => f32 (r *^ f32 (f1 -^ gamma args))) rewards.

(** Lines 137-138:
    [(advantages - advantages.mean()) / (advantages.std() + 1e-6)], on the
    float64 array [calc_gae] returned: mean and standard deviation are
    NumPy's, built on the pairwise sum. *)
Definition normalize_advantages (advantages : list F) : list F :=
  let mean := np_mean advantages in
  let std := np_std advantages in
  map (fun a => (a -^ mean) /^ (std +^ lit_1em6)) advantages.

(** Lines 122-152, the body of [while episode < args.num_episodes]. *)
Definition main_body (fuel : nat) (args : Args F) (episode : Z) : M Z :=
  '(obs, actions, rewards) <-
    collect_trajectories fuel (episodes_per_batch args) ;;
  let episode := (episode + episodes_per_batch args)%Z in
  pred_values <- call_agent (fun a => value_predict a obs) (EvValuePredict obs) ;;
  let scale_rewards := scale_rewards args rewards in
  let discount_sum_rewards :=
    calc_discount_sum_rewards scale_rewards (gamma args) in
  let discount_sum_rewards := astype_float32 discount_sum_rewards in
  let advantages := calc_gae scale_rewards pred_values (gamma args) (lam args) in
  let advantages := normalize_advantages advantages in
  let advantages := astype_float32 advantages in
  '(policy_loss, kl) <-
    call_agent (fun a => policy_learn a obs actions advantages)
      (EvPolicyLearn obs actions advantages) ;;
  value_loss <-
    call_agent (fun a => value_learn a obs discount_sum_rewards)
      (EvValueLearn obs discount_sum_rewards) ;;
  _ <- log_info
         (EvLogTrain episode
            (float32_div_int (np_sum_float32 rewards)
               (episodes_per_batch args))
            policy_loss kl value_loss) ;;
  if Z.eqb (episodes_per_batch args * 5) 0 then lift (Raise ZeroDivisionError)
  else if Z.eqb (episode mod (episodes_per_batch args * 5)) 0 then
    eval_reward <- run_evaluate_episode fuel ;;
    _ <- log_info (EvLogEval episode eval_reward) ;;
    ret episode
  else ret episode.

(** Lines 120-152. *)
Definition main_loop (loop_fuel fuel : nat) (args : Args F) : M Z :=
  while (fun episode => Z.ltb episode (num_episodes args))
        (main_body fuel args) loop_fuel 0%Z.

(** [main], from the warm-up batch on (line 118); the objects built before
    it are the world the function starts in. *)
Definition main (loop_fuel fuel : nat) (args : Args F) : M unit :=
  _ <- collect_trajectories fuel 5 ;;
  _ <- main_loop loop_fuel fuel args ;;
  ret tt.

(** ** The episode runner, in the words of its description

    One step of an episode, as a record of everything the step computes:
    the raw observation and the time-step feature it starts from, the
    unscaled and the normalized observation, what the policy returned, the
    action handed to the environment, and what the environment answered. *)
Inductive Mode : Type := Training | Evaluation.

Record StepRecord : Type := {
  s_raw : list F;
  s_time : F;
  s_unscaled : list F;
  s_normalized : list F;
  s_policy : list F;
  s_action : list F;
  s_reward : F;
  s_next : list F;
  s_done : bool
}.

(** The step [s] is a step of an episode run in [mode] with the pair
    (scale, offset), which takes the environment from [e] to [e'] and the
    agent from [a] to [a']: the time-step feature is appended to the raw
    observation, the result is normalized as (obs - offset) * scale (and
    cast to float32), the policy is asked for an action (sampled in
    training, predicted in evaluation), the action is (in training) clipped
    to [-1, 1], then rescaled to the action bounds (and, in training, cast
    to float32), and the environment is stepped with it. *)
Definition step_spec (mode : Mode) (scale offset : list F)
    (e : Env) (a : Agent) (s : StepRecord) (e' : Env) (a' : Agent) : Prop :=
  s_unscaled s = s_raw s ++ [s_time s]
  /\ normalize scale offset (s_unscaled s) = Ok (s_normalized s)
  /\ match mode with
     | Training =>
         policy_sample a (s_normalized s) = (s_policy s, a')
         /\ exists mapped,
              action_mapping (np_clip (s_policy s) neg_one f1)
                (action_low e) (action_high e) = Ok mapped
              /\ s_action s = astype_float32 mapped
     | Evaluation =>
         policy_predict a (s_normalized s) = (s_policy s, a')
         /\ action_mapping (s_policy s) (action_low e) (action_high e)
            = Ok (s_action s)
     end
  /\ env_step e (s_action s) = (s_next s, s_reward s, s_done s, e').

(** The same step in the words of its description, without the functions
    of the program.  An entry clipped to [-1, 1] is -1 when it is below -1,
    1 when it is above 1, and the entry itself otherwise. *)
Definition clipped_entry (p : F) : F :=
  if fltb p (f0 -^ f1) then f0 -^ f1
  else if fltb f1 p then f1
  else p.

(** [normalized] is [unscaled] normalized entry by entry with the pair
    (scale, offset): the entry of index [i] is (obs_i - offset_i) * scale_i,
    cast to float32. *)
Definition normalized_entrywise (scale offset unscaled normalized : list F)
  : Prop :=
  length normalized = length unscaled
  /\ forall i o off sc,
       nth_error unscaled i = Some o ->
       nth_error offset i = Some off ->
       nth_error scale i = Some sc ->
       nth_error normalized i = Some (f32 ((o -^ off) *^ sc)).

(** A step in words: the unscaled observation is the raw one with the
    time-step feature appended; when scale and offset have its length, the
    normalized observation is the unscaled one normalized entry by entry;
    the policy is asked on the normalized observation (sampled in training,
    predicted in evaluation); in training the answer is clipped entry by
    entry; [action_mapping] rescales it to the action bounds of the
    environment (and in training the result is cast to float32); the
    environment is stepped with that action, and answers with the next
    observation, the reward and [done]. *)
Definition step_in_words (mode : Mode) (scale offset : list F)
    (s : StepRecord) : Prop :=
  s_unscaled s = s_raw s ++ [s_time s]
  /\ (length offset = length (s_unscaled s) ->
      length scale = length (s_unscaled s) ->
      normalized_entrywise scale offset (s_unscaled s) (s_normalized s))
  /\ exists (e e' : Env) (a a' : Agent),
       match mode with
       | Training =>
           policy_sample a (s_normalized s) = (s_policy s, a')
           /\ exists mapped,
                action_mapping (map clipped_entry (s_policy s))
                  (action_low e) (action_high e) = Ok mapped
                /\ s_action s = map f32 mapped
       | Evaluation =>
           policy_predict a (s_normalized s) = (s_policy s, a')
           /\ action_mapping (s_policy s) (action_low e) (action_high e)
              = Ok (s_action s)
       end
       /\ env_step e (s_action s) = (s_next s, s_reward s, s_done s, e').

(** The steps of one episode from the raw observation [raw] and the
    time-step feature [time]: each step starts from the observation the
    previous one ended with and from its time-step feature plus 1e-3, and
    the last step is the first at which the environment reports done. *)
Inductive episode_steps (mode : Mode) (scale offset : list F)
  : Env -> Agent -> list F -> F -> list StepRecord -> Env -> Agent -> Prop :=
| steps_last e a raw time s e' a' :
    s_raw s = raw -> s_time s = time ->
    step_spec mode scale offset e a s e' a' ->
    s_done s = true ->
    episode_steps mode scale offset e a raw time [s] e' a'
| steps_next e a raw time s e1 a1 ss e' a' :
    s_raw s = raw -> s_time s = time ->
    step_spec mode scale offset e a s e1 a1 ->
    s_done s = false ->
    episode_steps mode scale offset e1 a1 (s_next s) (time +^ lit_1em3) ss e' a' ->
    episode_steps mode scale offset e a raw time (s :: ss) e' a'.

(** The calls one step makes. *)
Definition step_events (mode : Mode) (s : StepRecord) : list Event :=
  [ match mode with
    | Training => EvPolicySample (s_normalized s)
    | Evaluation => EvPolicyPredict (s_normalized s)
    end;
    EvStep (s_action s) ].

(** An episode from the world [w] to the world [w']: the environment is
    reset, the pair (scale, offset) is read from the scaler once and its last
    entries are set to 1 and 0, and the steps follow. *)
Definition episode_spec (mode : Mode) (w : World) (scale offset : list F)
    (steps : list StepRecord) (w' : World) : Prop :=
  set_last (fst (scaler_get (w_scaler w))) f1 = Ok scale
  /\ set_last (snd (scaler_get (w_scaler w))) f0 = Ok offset
  /\ episode_steps mode scale offset
       (snd (env_reset (w_env w))) (w_agent w) (fst (env_reset (w_env w))) f0
       steps (w_env w') (w_agent w')
  /\ w_scaler w' = scaler_stored (w_scaler w) scale offset
  /\ w_trace w' =
       w_trace w ++ [EvReset; EvScalerGet] ++ flat_map (step_events mode) steps.

(** The time-step feature of the step of index [k]: [k] additions of 1e-3
    to 0.0. *)
Definition time_feature (k : nat) : F :=
  Nat.iter k (fun step => step +^ lit_1em3) f0.

(** The result of a training episode. *)
Definition Trajectory : Type :=
  (list (list F) * list (list F) * list F * list (list F))%type.

Definition traj_unscaled (t : Trajectory) : list (list F) := snd t.
Definition traj_rewards (t : Trajectory) : list F := snd (fst t).
Definition traj_actions (t : Trajectory) : list (list F) := snd (fst (fst t)).
Definition traj_obs (t : Trajectory) : list (list F) := fst (fst (fst t)).

(** What a training episode returns, given its steps. *)
Definition trajectory_of (steps : list StepRecord)
  : Trajectory :=
  (map s_normalized steps, map s_action steps,
   astype_float32 (map s_reward steps), map s_unscaled steps).

(** The rows of each array to concatenate have one width. *)
Definition widths_agree (steps : list StepRecord) : Prop :=
  same_width (map s_normalized steps) = true
  /\ same_width (map s_action steps) = true
  /\ same_width (map s_unscaled steps) = true.

(** The world after [scaler.update(x)]. *)
Definition updated (w : World) (x : list (list F)) : World :=
  {| w_env := w_env w; w_agent := w_agent w;
     w_scaler := scaler_update (w_scaler w) x;
     w_trace := w_trace w ++ [EvScalerUpdate x] |}.

(** [n] training episodes run one after the other, from [w] to [w']. *)
Inductive episodes_run (fuel : nat)
  : nat -> World -> list Trajectory -> World -> Prop :=
| run_none w : episodes_run fuel 0 w [] w
| run_more n w t w1 ts w' :
    run_train_episode fuel w = (Ok t, w1) ->
    episodes_run fuel n w1 ts w' ->
    episodes_run fuel (S n) w (t :: ts) w'.

(** The scaler [s'] is the scaler [s] up to the stores of the script into
    the arrays [get] returned: no [update] lies between them. *)
Inductive not_updated (s : Scaler) : Scaler -> Prop :=
| not_updated_same : not_updated s s
| not_updated_stored s' scale offset :
    not_updated s s' -> not_updated s (scaler_stored s' scale offset).

(** The episodes of a batch that starts with the scaler [s]: each is a
    training episode whose pair (scale, offset) was read from [s], no update
    of the scaler in between. *)
Definition episode_of_batch (s : Scaler) (t : Trajectory) : Prop :=
  exists (wi wi' : World) scale offset steps,
    not_updated s (w_scaler wi)
    /\ episode_spec Training wi scale offset steps wi'
    /\ t = trajectory_of steps.

(** The calls to the scaler among the calls of a trace. *)
Definition is_scaler_call (ev : Event) : bool :=
  match ev with
  | EvScalerGet | EvScalerUpdate _ => true
  | _ => false
  end.

Definition scaler_calls (evs : list Event) : list Event :=
  filter is_scaler_call evs.

(** The time-step feature goes through the normalization untouched: the
    pair ends with the scale 1 and the offset 0, and at every step the last
    entry of (obs - offset) * scale is the time-step feature that was
    appended. *)
Definition time_step_untouched (scale offset : list F)
    (steps : list StepRecord) : Prop :=
  (forall d, last scale d = f1)
  /\ (forall d, last offset d = f0)
  /\ Forall (fun s =>
               exists scaled,
                 centre_and_scale scale offset (s_unscaled s) = Ok scaled
                 /\ s_normalized s = astype_float32 scaled
                 /\ (forall d, last (s_unscaled s) d = s_time s)
                 /\ (forall d, last scaled d = (s_time s -^ f0) *^ f1)
                 /\ (forall d, last scaled d = s_time s))
            steps.

(** The number of batches the training loop needs: the episodes to run
    divided by the episodes of a batch, rounded up, and none when there is
    no episode to run. *)
Definition batches_needed (args : Args F) : nat :=
  Z.to_nat ((num_episodes args + episodes_per_batch args - 1)
            / episodes_per_batch args).

(** A computation that makes no call to the scaler. *)
Definition quiet {A} (m : M A) : Prop :=
  forall w, exists evs,
    w_trace (snd (m w)) = w_trace w ++ evs /\ scaler_calls evs = [].

End Script.

(** ** The helpers of [utils] and [parl.utils] *)
Module SpecModels.
Section Helpers.
Context {F : Type} {FL : Float F}.

(** Modelled from the spec: [calc_discount_sum_rewards] of [utils], which is
    not part of the sources at hand.  The reward-to-go discounted sum: the
    value at an index is the reward there plus [gamma] times the value at
    the next index. *)
Fixpoint calc_discount_sum_rewards (rewards : list F) (gamma : F) : list F :=
  match rewards with
  | [] => []
  | r :: rest =>
      let tail := calc_discount_sum_rewards rest gamma in
      match tail with
      | [] => r :: tail
      | next :: _ => (r +^ gamma *^ next) :: tail
      end
  end.

(** Modelled from the spec: the temporal-difference residuals
    [r_t + gamma * V_(t+1) - V_t] of [calc_gae], with no value after the
    last step. *)
Fixpoint td_residuals (rewards values : list F) (gamma : F) : list F :=
  match rewards, values with
  | r :: rewards', v :: values' =>
      match values' with
      | [] => (r -^ v) :: td_residuals rewards' values' gamma
      | v' :: _ => (r +^ gamma *^ v' -^ v) :: td_residuals rewards' values' gamma
      end
  | _, _ => []
  end.

(** Modelled from the spec: [calc_gae] of [utils], which is not part of the
    sources at hand.  The residuals, discounted with [gamma * lam]. *)
Definition calc_gae (rewards values : list F) (gamma lam : F) : list F :=
  calc_discount_sum_rewards (td_residuals rewards values gamma) (gamma *^ lam).

(** Modelled from the spec: [action_mapping] of [parl.utils], which is not
    part of the sources at hand.  The linear map that takes [-1, 1] onto
    [low_bound, high_bound]. *)
Definition action_mapping (model_output_act : list F) (low_bound high_bound : F)
  : Outcome (list F) :=
  Ok (map (fun a =>
             low_bound +^ (a -^ neg_one) *^ ((high_bound -^ low_bound) /^ (f1 +^ f1)))
          model_output_act).

End Helpers.
End SpecModels.

(** ** Two readings of the arithmetic *)

(** Exact arithmetic: the rationals, where nothing is rounded. *)
Module Exact.

#[export] Instance float_exact : Float Qc := {|
  f0 := 0%Qc;
  f1 := 1%Qc;
  fadd := Qcplus;
  fsub := Qcminus;
  fmul := Qcmult;
  fdiv := Qcdiv;
  fltb := fun x y => match (x ?= y)%Qc with Lt => true | _ => false end;
  f_of_Z := fun z => Q2Qc (inject_Z z);
  f32 := fun x => x;
  lit_1em3 := Q2Qc (1 # 1000)%Q;
  lit_1em6 := Q2Qc (1 # 1000000)%Q
|}.



End Exact.

(** IEEE 754 binary64, the Python float. *)
Module Binary64.

(** Rounding to the nearest binary32 value, ties to even. *)
Definition round_float32 (x : float) : float :=
  match Prim2SF x with
  | S754_finite s m e => SF2Prim (binary_round 24 128 s m e)
  | _ => x
  end.

Definition float_of_Z (z : Z) : float :=
  SF2Prim (binary_normalize prec emax z 0 false).

#[export] Instance float_binary64 : Float float := {|
  f0 := 0%float;
  f1 := 1%float;
  fadd := PrimFloat.add;
  fsub := PrimFloat.sub;
  fmul := PrimFloat.mul;
  fdiv := PrimFloat.div;
  fltb := PrimFloat.ltb;
  f_of_Z := float_of_Z;
  f32 := round_float32;
  lit_1em3 := 0x1.0624dd2f1a9fcp-10%float;
  lit_1em6 := 0x1.0c6f7a0b5ed8dp-20%float
|}.

#[export] Instance sqrt_binary64 : FloatSqrt float := {| fsqrt := PrimFloat.sqrt |}.

(** A check on the time-step features of the first [n] steps of an
    episode, which runs the additions. *)
Definition time_check_upto (check : float -> bool) (n : N) : bool :=
  snd (N.iter n
         (fun st : float * bool =>
            ((fst st + 0x1.0624dd2f1a9fcp-10)%float, snd st && check (fst st)))
         (0%float, true)).

(** The next time-step feature is greater. *)
Definition time_increases (step : float) : bool :=
  PrimFloat.ltb step (step + 0x1.0624dd2f1a9fcp-10)%float.

End Binary64.

(** ** Stub collaborators, to run the script *)
Module Stub.
Section Stubs.
Context {F : Type} {FL : Float F}.

(** An environment whose episodes last [horizon] steps, with observations
    of two entries and the reward 1 at every step. *)
Record StubEnv : Type := { horizon : nat; clock : nat }.

#[export] Instance stub_env : GymEnv F StubEnv := {|
  env_reset := fun e => ([f0; f1], {| horizon := horizon e; clock := 0 |});
  env_step := fun e action =>
    let t := S (clock e) in
    (([f_of_Z (Z.of_nat t); hd f0 action], f1, Nat.leb (horizon e) t),
     {| horizon := horizon e; clock := t |});
  action_low := fun _ => f0 -^ (f1 +^ f1);
  action_high := fun _ => f1 +^ f1
|}.

(** An agent that counts its calls; it samples the first entry of the
    observation, and predicts 2, which is outside [-1, 1]. *)
#[export] Instance stub_agent : PolicyAgent F nat := {|
  policy_sample := fun n obs => ([hd f0 obs], S n);
  policy_predict := fun n obs => ([f1 +^ f1], S n);
  value_predict := fun n obs => (map (fun _ => f0) obs, S n);
  policy_learn := fun n obs actions advantages => ((f0, f0), S n);
  value_learn := fun n obs discount_sum_rewards => (f0, S n)
|}.

(** A scaler that keeps the number of rows seen and the sum of each column;
    it centres by the running mean and does not rescale. *)
Record StubScaler : Type := { cnt : Z; sums : list F }.

Definition stub_get (s : StubScaler) : list F * list F :=
  (map (fun _ => f1) (sums s),
   if Z.eqb (cnt s) 0 then sums s
   else map (fun x => x /^ f_of_Z (cnt s)) (sums s)).

Definition stub_update (s : StubScaler) (x : list (list F)) : StubScaler :=
  {| cnt := cnt s + Z.of_nat (length x);
     sums := fold_left (zip_with fadd) x (sums s) |}.

#[export] Instance stub_utils : Utils F StubScaler := {|
  scaler_get := stub_get;
  scaler_stored := fun s scale offset => s;
  scaler_update := stub_update;
  action_mapping := SpecModels.action_mapping;
  calc_discount_sum_rewards := SpecModels.calc_discount_sum_rewards;
  calc_gae := SpecModels.calc_gae
|}.

(** The world before the first call: an environment with the given
    horizon and a scaler for observations of three entries. *)
Definition stub_world (h : nat) : World (F := F) :=
  {| w_env := {| horizon := h; clock := 0 |};
     w_agent := 0%nat;
     w_scaler := {| cnt := 0; sums := [f0; f0; f0] |};
     w_trace := [] |}.

End Stubs.
End Stub.

(** The scenarios run below: the stub collaborators under each reading of
    the arithmetic, and a command line. *)
Module Scenario.
Import Stub Exact Binary64.

(** The runs below follow NumPy 1.x, the NumPy of the script's time. *)
#[export] Instance numpy_1 : ScalarPromotion := {| nep50 := false |}.

Definition world64 (h : nat) : World (F := float) := stub_world h.

Definition world_exact (h : nat) : World (F := Qc) := stub_world h.

(** [--num_episodes 7 --episodes_per_batch 2 --gamma 0.995 --lam 0.98] *)
Definition args64 : Args float := {|
  num_episodes := 7;
  gamma := 0x1.fd70a3d70a3d7p-1%float;
  lam := 0x1.f5c28f5c28f5cp-1%float;
  episodes_per_batch := 2
|}.

End Scenario.

(** ** Observations on the calls of a run *)

Section Calls.
Context {F : Type} {FL : Float F}.
Context {Env Agent Scaler : Type}.

(** The calls a training episode may make. *)
Definition is_training_call (ev : Event (F := F)) : bool :=
  match ev with
  | EvReset | EvStep _ | EvScalerGet | EvPolicySample _ => true
  | _ => false
  end.

(** The calls an evaluation episode may make. *)
Definition is_evaluation_call (ev : Event (F := F)) : bool :=
  match ev with
  | EvReset | EvStep _ | EvScalerGet | EvPolicyPredict _ => true
  | _ => false
  end.



Definition is_env_step (ev : Event (F := F)) : bool :=
  match ev with EvStep _ => true | _ => false end.

(** What the script does between the steps of its episodes, read off a
    trace: an episode starts (with [env.reset()]), the scaler is updated,
    the agent is asked for the values of a batch and learns from it, and a
    line is logged. *)
Inductive Mark : Type :=
| EpisodeStarted
| ScalerUpdated
| ValuesPredicted
| PolicyLearned
| ValueLearned
| TrainLogged (episode : Z)
| EvalLogged (episode : Z).

Definition mark_of (ev : Event (F := F)) : list Mark :=
  match ev with
  | EvReset => [EpisodeStarted]
  | EvScalerUpdate _ => [ScalerUpdated]
  | EvValuePredict _ => [ValuesPredicted]
  | EvPolicyLearn _ _ _ => [PolicyLearned]
  | EvValueLearn _ _ => [ValueLearned]
  | EvLogTrain episode _ _ _ _ => [TrainLogged episode]
  | EvLogEval episode _ => [EvalLogged episode]
  | _ => []
  end.

Definition marks (evs : list (Event (F := F))) : list Mark :=
  flat_map mark_of evs.

(** The marks of the batch of index [i], counted from 1, of a training
    loop with [epb] episodes per batch: the episodes of the batch, the
    update of the scaler, the three calls to the agent and the log line,
    and at every fifth batch an evaluation episode and its log line. *)
Definition batch_marks (epb : Z) (i : nat) : list Mark :=
  repeat EpisodeStarted (Z.to_nat epb)
  ++ [ScalerUpdated; ValuesPredicted; PolicyLearned; ValueLearned;
      TrainLogged (Z.of_nat i * epb)]
  ++ (if Nat.eqb (i mod 5) 0
      then [EpisodeStarted; EvalLogged (Z.of_nat i * epb)]
      else []).

(** A computation all of whose calls satisfy [P], whatever its outcome. *)
Definition emits_only (P : Event (F := F) -> bool) {A}
    (m : M (F := F) (Env := Env) (Agent := Agent) (Scaler := Scaler) A)
  : Prop :=
  forall w, exists evs,
    w_trace (snd (m w)) = w_trace w ++ evs /\ forallb P evs = true.

End Calls.

(** Worlds at the edges: a scaler with no dimension, and command lines
    with no episode to run or with empty batches. *)
Module Edges.
Import Stub Exact Binary64.

Definition world_no_dimension
  : @World float StubEnv nat (@StubScaler float) :=
  {| w_env := {| horizon := 3; clock := 0 |};
     w_agent := 0%nat;
     w_scaler := {| cnt := 0; sums := [] |};
     w_trace := [] |}.

(** [--num_episodes 0 --episodes_per_batch 2] *)
Definition args_no_episode : Args float := {|
  num_episodes := 0;
  gamma := 0x1.fd70a3d70a3d7p-1%float;
  lam := 0x1.f5c28f5c28f5cp-1%float;
  episodes_per_batch := 2
|}.

(** [--num_episodes 7 --episodes_per_batch 0] *)
Definition args_empty_batches : Args float := {|
  num_episodes := 7;
  gamma := 0x1.fd70a3d70a3d7p-1%float;
  lam := 0x1.f5c28f5c28f5cp-1%float;
  episodes_per_batch := 0
|}.

(** [--num_episodes 12 --episodes_per_batch 1]: twelve batches. *)
Definition args_twelve : Args float := {|
  num_episodes := 12;
  gamma := 0x1.fd70a3d70a3d7p-1%float;
  lam := 0x1.f5c28f5c28f5cp-1%float;
  episodes_per_batch := 1
|}.

End Edges.

(** A scaler that has seen observations: its arrays are given, with a
    last scale other than 1 and a last offset other than 0.  [get] hands
    out the arrays it holds, so that the stores of the script into them
    reach it. *)
Module Seen.
Section SeenScaler.
Context {F : Type} {FL : Float F}.

Record SeenScaler : Type := { seen_scale : list F; seen_offset : list F }.

#[export] Instance seen_utils : Utils F SeenScaler := {|
  scaler_get := fun s => (seen_scale s, seen_offset s);
  scaler_stored := fun s scale offset =>
    {| seen_scale := scale; seen_offset := offset |};
  scaler_update := fun s x => s;
  action_mapping := SpecModels.action_mapping;
  calc_discount_sum_rewards := SpecModels.calc_discount_sum_rewards;
  calc_gae := SpecModels.calc_gae
|}.

Definition seen_world (h : nat)
  : @World F Stub.StubEnv nat SeenScaler :=
  {| w_env := {| Stub.horizon := h; Stub.clock := 0 |};
     w_agent := 0%nat;
     w_scaler :=
       {| seen_scale := [f1 +^ f1; (f1 +^ f1) +^ (f1 +^ f1); f1 +^ f1];
          seen_offset := [f1; f1 +^ f1; (f1 +^ f1) +^ f1] |};
     w_trace := [] |}.

End SeenScaler.
End Seen.

(** * Facts *)

Section ScriptFacts.
Context {F : Type} {FL : Float F}.
Context {Env Agent Scaler : Type}.
Context {GE : GymEnv F Env} {PA : PolicyAgent F Agent} {UT : Utils F Scaler}.

Local Abbreviation World := (@World F Env Agent Scaler).
Local Abbreviation Event := (@Event F).
Local Abbreviation StepRecord := (@StepRecord F).
Local Abbreviation M := (@M F Env Agent Scaler).

(** ** NumPy shapes *)

Lemma concat_singletons (A : Type) (rows : list A) :
  concat (map (fun r => [r]) rows) = rows.
Proof.
  induction rows as [|r rows IH]; simpl; [reflexivity | now rewrite IH].
Qed.

Lemma np_concatenate_rows (rows out : list (list F)) :
  np_concatenate (map (fun r => [r]) rows) = Ok out <->
  rows <> [] /\ same_width rows = true /\ out = rows.
Proof.
  unfold np_concatenate.
  destruct rows as [|r rows].
  - simpl. split; [discriminate | intros [H _]; now elim H].
  - change (map (fun r0 => [r0]) (r :: rows))
      with ([r] :: map (fun r0 => [r0]) rows).
    cbv iota.
    change ([r] :: map (fun r0 => [r0]) rows)
      with (map (fun r0 : list F => [r0]) (r :: rows)).
    rewrite concat_singletons.
    destruct (same_width (r :: rows)); split.
    + intros [= <-]. repeat split. discriminate.
    + intros (_ & _ & ->). reflexivity.
    + discriminate.
    + intros (_ & [=] & _).
Qed.

Lemma np_concatenate_rows_same (rows : list (list F)) :
  rows <> [] -> same_width rows = true ->
  np_concatenate (map (fun r => [r]) rows) = Ok rows.
Proof. intros Hne Hw. apply np_concatenate_rows. auto. Qed.

Lemma last_map (A B : Type) (f : A -> B) (l : list A) (d : A) (d' : B) :
  l <> [] -> last (map f l) d' = f (last l d).
Proof.
  induction l as [|x l IH]; [congruence|]. intros _.
  destruct l as [|y l]; [reflexivity|].
  change (last (map f (y :: l)) d' = f (last (y :: l) d)).
  apply IH. discriminate.
Qed.

Lemma zip_with_last (op : F -> F -> F) (a b : list F) (d : F) :
  length a = length b -> a <> [] ->
  zip_with op a b <> []
  /\ last (zip_with op a b) d = op (last a d) (last b d).
Proof.
  revert b. induction a as [|x a IH]; intros b Hlen Hne; [congruence|].
  destruct b as [|y b]; [discriminate|]. split; [discriminate|].
  destruct a as [|x' a]; destruct b as [|y' b]; try discriminate;
    [reflexivity|].
  change (last (zip_with op (x' :: a) (y' :: b)) d
          = op (last (x' :: a) d) (last (y' :: b) d)).
  apply IH; [simpl in *; lia | discriminate].
Qed.

Lemma set_last_last (a : list F) (x : F) (a' : list F) :
  set_last a x = Ok a' ->
  a' <> [] /\ forall d, last a' d = x.
Proof.
  destruct a as [|y a]; simpl; [discriminate|].
  intros [= <-]. split.
  - intros E. apply app_eq_nil in E. destruct E as [_ E]. discriminate.
  - intros d. apply last_last.
Qed.

(** Broadcasting keeps the last entries together. *)
Lemma broadcast_last (op : F -> F -> F) (row v out : list F) :
  broadcast op row v = Ok out -> row <> [] -> v <> [] ->
  out <> [] /\ forall d, last out d = op (last row d) (last v d).
Proof.
  unfold broadcast. intros Hb Hrow Hv.
  destruct (Nat.eqb (length row) (length v)) eqn:Hlen.
  - injection Hb as <-. apply Nat.eqb_eq in Hlen.
    split; [exact (proj1 (@zip_with_last op row v f0 Hlen Hrow))|].
    intros d. exact (proj2 (@zip_with_last op row v d Hlen Hrow)).
  - destruct row as [|x [|x' row]]; [congruence| |].
    + injection Hb as <-. split.
      * intros E. apply map_eq_nil in E. contradiction.
      * intros d. simpl last at 2. now apply last_map.
    + destruct v as [|y [|y' v]]; [congruence| |discriminate].
      injection Hb as <-. split; [discriminate|].
      intros d.
      change (last (map (fun x0 => op x0 y) (x :: x' :: row)) d
              = op (last (x :: x' :: row) d) y).
      apply (last_map (fun x0 => op x0 y)). discriminate.
Qed.

Lemma centre_and_scale_last (scale offset obs out : list F) :
  centre_and_scale scale offset obs = Ok out ->
  obs <> [] -> scale <> [] -> offset <> [] ->
  forall d, last out d = (last obs d -^ last offset d) *^ last scale d.
Proof.
  unfold centre_and_scale. intros H Hobs Hsc Hoff d.
  destruct (broadcast fsub obs offset) as [centred| |] eqn:Hc;
    try discriminate.
  apply broadcast_last in Hc; [|assumption..]. destruct Hc as [Hne Hc].
  apply broadcast_last in H; [|assumption..]. destruct H as [_ H].
  now rewrite H, Hc.
Qed.

(** ** One step of the loops *)

Lemma train_body_ok (scale offset : list F) l (w : World) l' w' :
  train_body scale offset l w = (Ok l', w') ->
  exists s : StepRecord,
    s_raw s = t_obs l /\ s_time s = t_step l
    /\ step_spec Training scale offset (w_env w) (w_agent w) s (w_env w') (w_agent w')
    /\ l' = {| t_obs := s_next s; t_done := s_done s;
               t_step := t_step l +^ lit_1em3;
               t_observes := t_observes l ++ [s_normalized s];
               t_actions := t_actions l ++ [s_action s];
               t_rewards := t_rewards l ++ [s_reward s];
               t_unscaled_obs := t_unscaled_obs l ++ [s_unscaled s] |}
    /\ w_scaler w' = w_scaler w
    /\ w_trace w' = w_trace w ++ step_events Training s.
Proof.
  unfold train_body, bind, lift, ret, call_agent, call_env_step, env_bounds, emit.
  cbn [w_env w_agent w_scaler w_trace].
  destruct (normalize scale offset (np_append (t_obs l) (t_step l)))
    as [obs| |] eqn:Hn; try discriminate.
  destruct (policy_sample (w_agent w) obs) as [sampled a1] eqn:Hp.
  cbn [w_env w_agent w_scaler w_trace].
  destruct (action_mapping (np_clip sampled neg_one f1)
              (action_low (w_env w)) (action_high (w_env w)))
    as [mapped| |] eqn:Hm; try discriminate.
  destruct (env_step (w_env w) (astype_float32 mapped))
    as [[[obs' reward] done] e1] eqn:Hs.
  intros [= <- <-].
  exists {| s_raw := t_obs l; s_time := t_step l;
            s_unscaled := np_append (t_obs l) (t_step l);
            s_normalized := obs; s_policy := sampled;
            s_action := astype_float32 mapped; s_reward := reward;
            s_next := obs'; s_done := done |}.
  unfold step_spec, step_events. cbn.
  repeat split; try assumption; try reflexivity.
  - exists mapped. split; [assumption | reflexivity].
  - now rewrite <- app_assoc.
Qed.

Lemma train_body_complete (scale offset : list F) l (w : World) s e' a' :
  s_raw s = t_obs l -> s_time s = t_step l ->
  step_spec Training scale offset (w_env w) (w_agent w) s e' a' ->
  train_body scale offset l w =
    (Ok {| t_obs := s_next s; t_done := s_done s;
           t_step := t_step l +^ lit_1em3;
           t_observes := t_observes l ++ [s_normalized s];
           t_actions := t_actions l ++ [s_action s];
           t_rewards := t_rewards l ++ [s_reward s];
           t_unscaled_obs := t_unscaled_obs l ++ [s_unscaled s] |},
     {| w_env := e'; w_agent := a'; w_scaler := w_scaler w;
        w_trace := w_trace w ++ step_events Training s |}).
Proof.
  intros Hraw Htime (Hu & Hn & (Hp & mapped & Hm & Ha) & Hs).
  unfold train_body, bind, lift, ret, call_agent, call_env_step, env_bounds, emit.
  cbn [w_env w_agent w_scaler w_trace].
  unfold np_append. rewrite <- Hraw, <- Htime, <- Hu, Hn, Hp.
  cbn [w_env w_agent w_scaler w_trace].
  rewrite Hm, <- Ha, Hs. unfold step_events.
  now rewrite <- app_assoc.
Qed.

Lemma evaluate_body_ok (scale offset : list F) l (w : World) l' stop w' :
  evaluate_body scale offset l w = (Ok (l', stop), w') ->
  exists s : StepRecord,
    s_raw s = e_obs l /\ s_time s = e_step l
    /\ step_spec Evaluation scale offset (w_env w) (w_agent w) s (w_env w') (w_agent w')
    /\ l' = {| e_obs := s_next s; e_step := e_step l +^ lit_1em3;
               e_rewards := e_rewards l ++ [s_reward s] |}
    /\ stop = s_done s
    /\ w_scaler w' = w_scaler w
    /\ w_trace w' = w_trace w ++ step_events Evaluation s.
Proof.
  unfold evaluate_body, bind, lift, ret, call_agent, call_env_step, env_bounds, emit.
  cbn [w_env w_agent w_scaler w_trace].
  destruct (normalize scale offset (np_append (e_obs l) (e_step l)))
    as [obs| |] eqn:Hn; try discriminate.
  destruct (policy_predict (w_agent w) obs) as [predicted a1] eqn:Hp.
  cbn [w_env w_agent w_scaler w_trace].
  destruct (action_mapping predicted (action_low (w_env w)) (action_high (w_env w)))
    as [mapped| |] eqn:Hm; try discriminate.
  destruct (env_step (w_env w) mapped) as [[[obs' reward] done] e1] eqn:Hs.
  intros [= <- <- <-].
  exists {| s_raw := e_obs l; s_time := e_step l;
            s_unscaled := np_append (e_obs l) (e_step l);
            s_normalized := obs; s_policy := predicted;
            s_action := mapped; s_reward := reward;
            s_next := obs'; s_done := done |}.
  unfold step_spec, step_events. cbn.
  repeat split; try assumption; try reflexivity.
  now rewrite <- app_assoc.
Qed.

Lemma evaluate_body_complete (scale offset : list F) l (w : World) s e' a' :
  s_raw s = e_obs l -> s_time s = e_step l ->
  step_spec Evaluation scale offset (w_env w) (w_agent w) s e' a' ->
  evaluate_body scale offset l w =
    (Ok ({| e_obs := s_next s; e_step := e_step l +^ lit_1em3;
            e_rewards := e_rewards l ++ [s_reward s] |}, s_done s),
     {| w_env := e'; w_agent := a'; w_scaler := w_scaler w;
        w_trace := w_trace w ++ step_events Evaluation s |}).
Proof.
  intros Hraw Htime (Hu & Hn & (Hp & Hm) & Hs).
  unfold evaluate_body, bind, lift, ret, call_agent, call_env_step, env_bounds, emit.
  cbn [w_env w_agent w_scaler w_trace].
  unfold np_append. rewrite <- Hraw, <- Htime, <- Hu, Hn, Hp.
  cbn [w_env w_agent w_scaler w_trace].
  rewrite Hm, Hs. unfold step_events.
  now rewrite <- app_assoc.
Qed.

(** ** The loops of the two episode runners *)

Lemma train_loop_ok (scale offset : list F) (fuel : nat) :
  forall l (w : World) l' w',
    t_done l = false ->
    while (fun l => negb (t_done l)) (train_body scale offset) fuel l w
      = (Ok l', w') ->
    exists steps : list StepRecord,
      episode_steps Training scale offset (w_env w) (w_agent w)
        (t_obs l) (t_step l) steps (w_env w') (w_agent w')
      /\ length steps <= fuel
      /\ t_observes l' = t_observes l ++ map s_normalized steps
      /\ t_actions l' = t_actions l ++ map s_action steps
      /\ t_rewards l' = t_rewards l ++ map s_reward steps
      /\ t_unscaled_obs l' = t_unscaled_obs l ++ map s_unscaled steps
      /\ w_scaler w' = w_scaler w
      /\ w_trace w' = w_trace w ++ flat_map (step_events Training) steps.
Proof.
  induction fuel as [|fuel IH]; intros l w l' w' Hd; simpl; rewrite Hd; simpl.
  - discriminate.
  - unfold bind at 1.
    destruct (train_body scale offset l w) as [[l1| |] w1] eqn:Hb;
      try discriminate.
    apply train_body_ok in Hb.
    destruct Hb as (s & Hraw & Htime & Hstep & -> & Hsc & Htr).
    destruct (s_done s) eqn:Hdone.
    + destruct fuel; simpl;
        intros [= <- <-]; exists [s]; simpl;
        rewrite ?app_nil_r;
        (repeat split; try assumption; try lia; now apply steps_last).
    + intros Hw. apply IH in Hw; [|reflexivity].
      destruct Hw as (steps & Hsteps & Hlen & Ho & Ha & Hr & Hu & Hsc' & Htr').
      simpl in *. exists (s :: steps). simpl.
      repeat split.
      * eapply steps_next; eauto.
      * lia.
      * now rewrite Ho, <- app_assoc.
      * now rewrite Ha, <- app_assoc.
      * now rewrite Hr, <- app_assoc.
      * now rewrite Hu, <- app_assoc.
      * congruence.
      * rewrite Htr', Htr, <- !app_assoc. reflexivity.
Qed.

Lemma while_finished {L : Type} (cond : L -> bool) (body : L -> M L)
    (fuel : nat) (l : L) (w : World) :
  cond l = false -> while cond body fuel l w = (Ok l, w).
Proof. intros H. destruct fuel; simpl; rewrite H; reflexivity. Qed.

Lemma train_loop_complete (scale offset : list F) e a raw time steps e' a' :
  episode_steps Training scale offset e a raw time steps e' a' ->
  forall fuel l (w : World),
    length steps <= fuel ->
    w_env w = e -> w_agent w = a -> t_obs l = raw -> t_step l = time ->
    t_done l = false ->
    exists l',
      while (fun l => negb (t_done l)) (train_body scale offset) fuel l w
        = (Ok l',
           {| w_env := e'; w_agent := a'; w_scaler := w_scaler w;
              w_trace := w_trace w ++ flat_map (step_events Training) steps |})
      /\ t_observes l' = t_observes l ++ map s_normalized steps
      /\ t_actions l' = t_actions l ++ map s_action steps
      /\ t_rewards l' = t_rewards l ++ map s_reward steps
      /\ t_unscaled_obs l' = t_unscaled_obs l ++ map s_unscaled steps.
Proof.
  induction 1 as [e a raw time s e' a' Hraw Htime Hstep Hdone
                 |e a raw time s e1 a1 ss e' a' Hraw Htime Hstep Hdone Hrest IH];
    intros fuel l w Hlen He Ha Hobs Hst Hd; subst e a;
    (destruct fuel as [|fuel]; [simpl in Hlen; lia|]);
    simpl; rewrite Hd; simpl; unfold bind at 1.
  - rewrite (train_body_complete (s := s) (e' := e') (a' := a') l w)
      by congruence.
    rewrite while_finished by (simpl; now rewrite Hdone).
    eexists. split.
    { simpl. rewrite ?app_nil_r. reflexivity. }
    simpl. repeat split; reflexivity.
  - rewrite (train_body_complete (s := s) (e' := e1) (a' := a1) l w)
      by congruence.
    edestruct IH as (l' & Hw & Ho & Hac & Hr & Hu);
      [ | | | | | | rewrite Hw ].
    + simpl in Hlen. apply le_S_n, Hlen.
    + reflexivity.
    + reflexivity.
    + reflexivity.
    + simpl. congruence.
    + simpl. assumption.
    + exists l'. simpl in *. rewrite <- !app_assoc in *. simpl in *.
      repeat split; assumption.
Qed.

Lemma evaluate_loop_ok (scale offset : list F) (fuel : nat) :
  forall l (w : World) l' w',
    loop_until_break (evaluate_body scale offset) fuel l w = (Ok l', w') ->
    exists steps : list StepRecord,
      episode_steps Evaluation scale offset (w_env w) (w_agent w)
        (e_obs l) (e_step l) steps (w_env w') (w_agent w')
      /\ length steps <= fuel
      /\ e_rewards l' = e_rewards l ++ map s_reward steps
      /\ w_scaler w' = w_scaler w
      /\ w_trace w' = w_trace w ++ flat_map (step_events Evaluation) steps.
Proof.
  induction fuel as [|fuel IH]; intros l w l' w'; simpl.
  - discriminate.
  - unfold bind at 1.
    destruct (evaluate_body scale offset l w) as [[[l1 stop]| |] w1] eqn:Hb;
      try discriminate.
    apply evaluate_body_ok in Hb.
    destruct Hb as (s & Hraw & Htime & Hstep & -> & -> & Hsc & Htr).
    destruct (s_done s) eqn:Hdone.
    + intros [= <- <-]. exists [s]. simpl. rewrite ?app_nil_r.
      repeat split; try assumption; try lia. now apply steps_last.
    + intros Hw. apply IH in Hw.
      destruct Hw as (steps & Hsteps & Hlen & Hr & Hsc' & Htr').
      simpl in *. exists (s :: steps). simpl.
      repeat split.
      * eapply steps_next; eauto.
      * lia.
      * now rewrite Hr, <- app_assoc.
      * congruence.
      * rewrite Htr', Htr, <- !app_assoc. reflexivity.
Qed.

Lemma evaluate_loop_complete (scale offset : list F) e a raw time steps e' a' :
  episode_steps Evaluation scale offset e a raw time steps e' a' ->
  forall fuel l (w : World),
    length steps <= fuel ->
    w_env w = e -> w_agent w = a -> e_obs l = raw -> e_step l = time ->
    exists l',
      loop_until_break (evaluate_body scale offset) fuel l w
        = (Ok l',
           {| w_env := e'; w_agent := a'; w_scaler := w_scaler w;
              w_trace := w_trace w ++ flat_map (step_events Evaluation) steps |})
      /\ e_rewards l' = e_rewards l ++ map s_reward steps.
Proof.
  induction 1 as [e a raw time s e' a' Hraw Htime Hstep Hdone
                 |e a raw time s e1 a1 ss e' a' Hraw Htime Hstep Hdone Hrest IH];
    intros fuel l w Hlen He Ha Hobs Hst; subst e a;
    (destruct fuel as [|fuel]; [simpl in Hlen; lia|]);
    simpl; unfold bind at 1.
  - rewrite (evaluate_body_complete (s := s) (e' := e') (a' := a') l w)
      by congruence.
    rewrite Hdone.
    eexists. split.
    { unfold ret. simpl. rewrite ?app_nil_r. reflexivity. }
    simpl. reflexivity.
  - rewrite (evaluate_body_complete (s := s) (e' := e1) (a' := a1) l w)
      by congruence.
    rewrite Hdone.
    edestruct IH as (l' & Hw & Hr); [ | | | | | rewrite Hw ].
    + simpl in Hlen. apply le_S_n, Hlen.
    + reflexivity.
    + reflexivity.
    + reflexivity.
    + simpl. congruence.
    + exists l'. simpl in *. rewrite <- !app_assoc in *. simpl in *.
      split; [reflexivity | assumption].
Qed.

(** ** The episode runners *)

Lemma get_scale_offset_ok (w : World) scale offset w' :
  get_scale_offset w = (Ok (scale, offset), w') <->
  set_last (fst (scaler_get (w_scaler w))) f1 = Ok scale
  /\ set_last (snd (scaler_get (w_scaler w))) f0 = Ok offset
  /\ w' = {| w_env := w_env w; w_agent := w_agent w;
             w_scaler := scaler_stored (w_scaler w) scale offset;
             w_trace := w_trace w ++ [EvScalerGet] |}.
Proof.
  unfold get_scale_offset, bind, lift, ret, call_scaler_get,
    store_scaler_arrays, emit.
  cbn [w_env w_agent w_scaler w_trace].
  destruct (scaler_get (w_scaler w)) as [sc off]. cbn [fst snd].
  destruct (set_last sc f1) as [sc'| |]; cbn;
    [destruct (set_last off f0) as [off'| |]; cbn|..];
    split; try discriminate; try (intros (H1 & H2 & H3); discriminate).
  - intros [= <- <- <-]. repeat split.
  - intros (H1 & H2 & ->). injection H1 as <-. injection H2 as <-. reflexivity.
Qed.

Lemma episode_steps_nonempty mode (scale offset : list F) e a raw time steps e' a' :
  episode_steps (Env := Env) (Agent := Agent) mode scale offset
    e a raw time steps e' a' ->
  steps <> [].
Proof. destruct 1; discriminate. Qed.

Lemma run_train_episode_ok (fuel : nat) (w : World) t w' :
  run_train_episode fuel w = (Ok t, w') ->
  exists scale offset steps,
    episode_spec Training w scale offset steps w'
    /\ length steps <= fuel
    /\ widths_agree steps
    /\ t = trajectory_of steps.
Proof.
  unfold run_train_episode. unfold bind at 1.
  unfold call_env_reset at 1.
  destruct (env_reset (w_env w)) as [obs0 e0] eqn:Hreset.
  unfold bind at 1.
  match goal with |- context [get_scale_offset ?w1] =>
    destruct (get_scale_offset w1) as [[[scale offset]| |] w2] eqn:Hget
  end; try discriminate.
  apply get_scale_offset_ok in Hget. cbn in Hget.
  destruct Hget as (Hsc & Hoff & ->).
  unfold bind at 1.
  match goal with |- context [while ?c ?b fuel ?l0 ?w1] =>
    destruct (while c b fuel l0 w1) as [[l| |] w3] eqn:Hloop
  end; try discriminate.
  apply train_loop_ok in Hloop; [|reflexivity].
  destruct Hloop as (steps & Hsteps & Hlen & Ho & Ha & Hr & Hu & Hscaler & Htrace).
  cbn in Hsteps, Ho, Ha, Hr, Hu, Hscaler, Htrace.
  unfold bind, lift, ret.
  rewrite Ho, Ha, Hr, Hu.
  destruct (np_concatenate (map (fun r => [r]) (map s_normalized steps)))
    as [o| |] eqn:Eo; try discriminate.
  destruct (np_concatenate (map (fun r => [r]) (map s_action steps)))
    as [ac| |] eqn:Ea; try discriminate.
  destruct (np_concatenate (map (fun r => [r]) (map s_unscaled steps)))
    as [u| |] eqn:Eu; try discriminate.
  apply np_concatenate_rows in Eo, Ea, Eu.
  destruct Eo as (_ & Wo & ->), Ea as (_ & Wa & ->), Eu as (_ & Wu & ->).
  intros [= <- <-].
  exists scale, offset, steps.
  unfold episode_spec, widths_agree, trajectory_of.
  rewrite Hreset. cbn [fst snd].
  repeat split; try assumption.
  rewrite Htrace, <- !app_assoc. reflexivity.
Qed.

Lemma run_train_episode_complete (fuel : nat) (w : World) scale offset steps w' :
  episode_spec Training w scale offset steps w' ->
  length steps <= fuel ->
  widths_agree steps ->
  run_train_episode fuel w = (Ok (trajectory_of steps), w').
Proof.
  intros (Hsc & Hoff & Hsteps & Hscaler & Htrace) Hlen (Wo & Wa & Wu).
  unfold run_train_episode. unfold bind at 1.
  unfold call_env_reset at 1.
  destruct (env_reset (w_env w)) as [obs0 e0] eqn:Hreset.
  cbn [fst snd] in Hsteps.
  unfold bind at 1.
  match goal with |- context [get_scale_offset ?w1] =>
    rewrite (proj2 (get_scale_offset_ok w1 scale offset _)
               (conj Hsc (conj Hoff eq_refl)))
  end.
  cbn [w_env w_agent w_scaler w_trace emit].
  unfold bind at 1.
  match goal with |- context [while ?c ?b fuel ?l0 ?w1] =>
    destruct (train_loop_complete Hsteps (fuel := fuel) l0 w1)
      as (l & Hw & Ho & Ha & Hr & Hu);
      [assumption|reflexivity..|rewrite Hw]
  end.
  cbn in Ho, Ha, Hr, Hu.
  pose proof (episode_steps_nonempty Hsteps) as Hne.
  unfold bind, lift, ret. rewrite Ho, Ha, Hr, Hu.
  rewrite !np_concatenate_rows_same;
    try assumption;
    try (intros E; apply map_eq_nil in E; contradiction).
  unfold trajectory_of. f_equal.
  destruct w' as [e' a' s' tr']. cbn in *.
  rewrite Hscaler, Htrace, <- !app_assoc. reflexivity.
Qed.

Lemma run_evaluate_episode_ok (fuel : nat) (w : World) v w' :
  run_evaluate_episode fuel w = (Ok v, w') ->
  exists scale offset steps,
    episode_spec Evaluation w scale offset steps w'
    /\ length steps <= fuel
    /\ v = np_sum (map s_reward steps).
Proof.
  unfold run_evaluate_episode. unfold bind at 1.
  unfold call_env_reset at 1.
  destruct (env_reset (w_env w)) as [obs0 e0] eqn:Hreset.
  unfold bind at 1.
  match goal with |- context [get_scale_offset ?w1] =>
    destruct (get_scale_offset w1) as [[[scale offset]| |] w2] eqn:Hget
  end; try discriminate.
  apply get_scale_offset_ok in Hget. cbn in Hget.
  destruct Hget as (Hsc & Hoff & ->).
  unfold bind at 1.
  match goal with |- context [loop_until_break ?b fuel ?l0 ?w1] =>
    destruct (loop_until_break b fuel l0 w1) as [[l| |] w3] eqn:Hloop
  end; try discriminate.
  apply evaluate_loop_ok in Hloop.
  destruct Hloop as (steps & Hsteps & Hlen & Hr & Hscaler & Htrace).
  cbn in Hsteps, Hr, Hscaler, Htrace.
  unfold ret. rewrite Hr. intros [= <- <-].
  exists scale, offset, steps.
  unfold episode_spec. rewrite Hreset. cbn [fst snd].
  repeat split; try assumption.
  rewrite Htrace, <- !app_assoc. reflexivity.
Qed.

Lemma run_evaluate_episode_complete (fuel : nat) (w : World)
    scale offset steps w' :
  episode_spec Evaluation w scale offset steps w' ->
  length steps <= fuel ->
  run_evaluate_episode fuel w = (Ok (np_sum (map s_reward steps)), w').
Proof.
  intros (Hsc & Hoff & Hsteps & Hscaler & Htrace) Hlen.
  unfold run_evaluate_episode. unfold bind at 1.
  unfold call_env_reset at 1.
  destruct (env_reset (w_env w)) as [obs0 e0] eqn:Hreset.
  cbn [fst snd] in Hsteps.
  unfold bind at 1.
  match goal with |- context [get_scale_offset ?w1] =>
    rewrite (proj2 (get_scale_offset_ok w1 scale offset _)
               (conj Hsc (conj Hoff eq_refl)))
  end.
  cbn [w_env w_agent w_scaler w_trace emit].
  unfold bind at 1.
  match goal with |- context [loop_until_break ?b fuel ?l0 ?w1] =>
    destruct (evaluate_loop_complete Hsteps (fuel := fuel) l0 w1)
      as (l & Hw & Hr);
      [assumption|reflexivity..|rewrite Hw]
  end.
  cbn in Hr. unfold ret. rewrite Hr. f_equal.
  destruct w' as [e' a' s' tr']. cbn in *.
  rewrite Hscaler, Htrace, <- !app_assoc. reflexivity.
Qed.

(** ** The calls an episode makes *)

Lemma scaler_calls_app (evs1 evs2 : list Event) :
  scaler_calls (evs1 ++ evs2) = scaler_calls evs1 ++ scaler_calls evs2.
Proof. apply filter_app. Qed.

Lemma scaler_calls_steps mode (steps : list StepRecord) :
  scaler_calls (flat_map (step_events mode) steps) = [].
Proof.
  induction steps as [|s steps IH]; [reflexivity|].
  simpl. destruct mode; simpl; exact IH.
Qed.

Lemma episode_spec_scaler_calls mode (w : World) scale offset steps w' :
  episode_spec mode w scale offset steps w' ->
  exists evs, w_trace w' = w_trace w ++ evs /\ scaler_calls evs = [EvScalerGet].
Proof.
  intros (_ & _ & _ & _ & Htrace).
  eexists. split; [exact Htrace|].
  rewrite scaler_calls_app, scaler_calls_steps. reflexivity.
Qed.

(** ** Batches *)

Lemma collect_loop_ok (fuel n : nat) :
  forall l (w : World) l' w',
    for_range (collect_body fuel) n l w = (Ok l', w') ->
    exists ts,
      episodes_run fuel n w ts w'
      /\ all_obs l' = all_obs l ++ map (@traj_obs F) ts
      /\ all_actions l' = all_actions l ++ map (@traj_actions F) ts
      /\ all_rewards l' = all_rewards l ++ map (@traj_rewards F) ts
      /\ all_unscaled_obs l' = all_unscaled_obs l ++ map (@traj_unscaled F) ts.
Proof.
  induction n as [|n IH]; intros l w l' w'; simpl.
  - intros [= <- <-]. exists []. simpl. rewrite !app_nil_r.
    repeat split. constructor.
  - unfold bind at 1. unfold collect_body at 1. unfold bind at 1.
    destruct (run_train_episode fuel w) as [[[[[o a] r] u]| |] w1] eqn:Hrun;
      try discriminate.
    unfold ret at 1. intros Hloop. apply IH in Hloop.
    destruct Hloop as (ts & Hts & Ho & Ha & Hr & Hu). cbn in Ho, Ha, Hr, Hu.
    exists ((o, a, r, u) :: ts). simpl.
    rewrite Ho, Ha, Hr, Hu, <- !app_assoc.
    repeat split. econstructor; eassumption.
Qed.

Lemma collect_loop_complete (fuel n : nat) (w : World) ts w' :
  episodes_run fuel n w ts w' ->
  forall l,
    for_range (collect_body fuel) n l w =
      (Ok {| all_obs := all_obs l ++ map (@traj_obs F) ts;
             all_actions := all_actions l ++ map (@traj_actions F) ts;
             all_rewards := all_rewards l ++ map (@traj_rewards F) ts;
             all_unscaled_obs :=
               all_unscaled_obs l ++ map (@traj_unscaled F) ts |}, w').
Proof.
  induction 1 as [w|n w t w1 ts w' Hrun Hrest IH]; intros l; simpl.
  - rewrite !app_nil_r. destruct l; reflexivity.
  - unfold bind at 1. unfold collect_body at 1. unfold bind at 1.
    rewrite Hrun. destruct t as [[[o a] r] u]. unfold ret at 1.
    rewrite IH. simpl. rewrite <- !app_assoc. reflexivity.
Qed.

Lemma episodes_run_scaler_calls (fuel n : nat) (w : World) ts w' :
  episodes_run fuel n w ts w' ->
  length ts = n
  /\ exists evs,
       w_trace w' = w_trace w ++ evs
       /\ scaler_calls evs = repeat EvScalerGet n.
Proof.
  induction 1 as [w|n w t w1 ts w' Hrun Hrest [IHlen (evs & IHtr & IHsc)]].
  - split; [reflexivity|]. exists []. now rewrite app_nil_r.
  - split; [simpl; now rewrite IHlen|].
    apply run_train_episode_ok in Hrun.
    destruct Hrun as (scale & offset & steps & Hspec & _).
    apply episode_spec_scaler_calls in Hspec.
    destruct Hspec as (evs1 & Htr1 & Hsc1).
    exists (evs1 ++ evs). split.
    + rewrite IHtr, Htr1, <- app_assoc. reflexivity.
    + rewrite scaler_calls_app, Hsc1, IHsc. reflexivity.
Qed.

Lemma collect_trajectories_ok (fuel : nat) (episodes : Z) (w : World)
    obs actions rewards w' :
  collect_trajectories fuel episodes w = (Ok (obs, actions, rewards), w') ->
  exists ts wn,
    episodes_run fuel (Z.to_nat episodes) w ts wn
    /\ w' = updated wn (concat (map (@traj_unscaled F) ts))
    /\ obs = concat (map (@traj_obs F) ts)
    /\ actions = concat (map (@traj_actions F) ts)
    /\ rewards = concat (map (@traj_rewards F) ts).
Proof.
  unfold collect_trajectories. unfold bind at 1.
  match goal with |- context [for_range ?b ?n ?l0 w] =>
    destruct (for_range b n l0 w) as [[l| |] wn] eqn:Hloop
  end; try discriminate.
  apply collect_loop_ok in Hloop.
  destruct Hloop as (ts & Hts & Ho & Ha & Hr & Hu). cbn in Ho, Ha, Hr, Hu.
  unfold bind, lift, ret, call_scaler_update, emit. rewrite Ho, Ha, Hr, Hu.
  unfold np_concatenate, np_concatenate1.
  destruct (map (@traj_unscaled F) ts) as [|u us] eqn:Eu; try discriminate.
  destruct (same_width (concat (u :: us))); try discriminate.
  cbn [w_env w_agent w_scaler w_trace].
  destruct (map (@traj_obs F) ts) as [|o os] eqn:Eo; try discriminate.
  destruct (same_width (concat (o :: os))); try discriminate.
  destruct (map (@traj_actions F) ts) as [|a acs] eqn:Ea; try discriminate.
  destruct (same_width (concat (a :: acs))); try discriminate.
  destruct (map (@traj_rewards F) ts) as [|r rs] eqn:Er; try discriminate.
  intros [= <- <- <- <-].
  exists ts, wn. rewrite Eu, Eo, Ea, Er. repeat split. assumption.
Qed.

(** ** Computations that leave the scaler alone *)

Lemma quiet_ret (A : Type) (a : A) : quiet (ret a : M A).
Proof. intros w. exists []. simpl. now rewrite app_nil_r. Qed.

Lemma quiet_lift (A : Type) (o : Outcome A) : quiet (lift o : M A).
Proof. intros w. exists []. simpl. now rewrite app_nil_r. Qed.

Lemma quiet_bind (A B : Type) (m : M A) (k : A -> M B) :
  quiet m -> (forall a, quiet (k a)) -> quiet (bind m k).
Proof.
  intros Hm Hk w. unfold bind.
  destruct (Hm w) as (evs1 & H1 & S1).
  destruct (m w) as [[a| |] w1]; simpl in H1.
  - destruct (Hk a w1) as (evs2 & H2 & S2).
    exists (evs1 ++ evs2). split.
    + rewrite H2, H1, app_assoc. reflexivity.
    + rewrite scaler_calls_app, S1, S2. reflexivity.
  - exists evs1. simpl. auto.
  - exists evs1. simpl. auto.
Qed.

Lemma quiet_call_agent (A : Type) (method : Agent -> A * Agent) (ev : Event) :
  is_scaler_call ev = false -> quiet (call_agent method ev : M A).
Proof.
  intros Hev w. unfold call_agent. destruct (method (w_agent w)) as [r a].
  exists [ev]. simpl. unfold scaler_calls. simpl. now rewrite Hev.
Qed.

Lemma quiet_call_env_step (action : list F) :
  quiet (call_env_step action : M (list F * F * bool)).
Proof.
  intros w. unfold call_env_step.
  destruct (env_step (w_env w) action) as [r e].
  exists [EvStep action]. simpl. auto.
Qed.

Lemma quiet_env_bounds : quiet (env_bounds : M (F * F)).
Proof. intros w. exists []. simpl. now rewrite app_nil_r. Qed.

Lemma quiet_while (L : Type) (cond : L -> bool) (body : L -> M L) :
  (forall l, quiet (body l)) -> forall fuel l, quiet (while cond body fuel l).
Proof.
  intros Hb. induction fuel as [|fuel IH]; intros l; simpl;
    destruct (cond l); try apply quiet_ret; try apply quiet_lift.
  apply quiet_bind; [apply Hb | apply IH].
Qed.

Lemma quiet_loop_until_break (L : Type) (body : L -> M (L * bool)) :
  (forall l, quiet (body l)) ->
  forall fuel l, quiet (loop_until_break body fuel l).
Proof.
  intros Hb. induction fuel as [|fuel IH]; intros l; simpl.
  - apply quiet_lift.
  - apply quiet_bind; [apply Hb|].
    intros [l' [|]]; [apply quiet_ret | apply IH].
Qed.

(** Goes through a computation of the script, call by call. *)
Ltac quiet_steps :=
  repeat (first [ apply quiet_bind | apply quiet_lift | apply quiet_ret
                | apply quiet_call_agent; reflexivity
                | apply quiet_call_env_step | apply quiet_env_bounds
                | intros [[? ?] ?] | intros [? ?] | intros ? ]).

Lemma quiet_train_body (scale offset : list F) l :
  quiet (train_body scale offset l : M _).
Proof. unfold train_body. quiet_steps. Qed.

Lemma quiet_evaluate_body (scale offset : list F) l :
  quiet (evaluate_body scale offset l : M _).
Proof. unfold evaluate_body. quiet_steps. Qed.

Lemma get_scale_offset_trace (w : World) :
  w_trace (snd (get_scale_offset w)) = w_trace w ++ [EvScalerGet].
Proof.
  unfold get_scale_offset, bind, lift, ret, call_scaler_get,
    store_scaler_arrays, emit.
  cbn [w_env w_agent w_scaler w_trace].
  destruct (scaler_get (w_scaler w)) as [sc off].
  destruct (set_last sc f1) as [sc'| |]; [|reflexivity..].
  destruct (set_last off f0) as [off'| |]; reflexivity.
Qed.

(** Whatever the outcome of a training episode, its calls are a reset, one
    read of the scaler, and then calls that leave the scaler alone. *)
Lemma run_train_episode_calls (fuel : nat) (w : World) :
  exists evs,
    w_trace (snd (run_train_episode fuel w))
      = w_trace w ++ [EvReset; EvScalerGet] ++ evs
    /\ scaler_calls evs = [].
Proof.
  unfold run_train_episode. unfold bind at 1. unfold call_env_reset at 1.
  destruct (env_reset (w_env w)) as [obs0 e0].
  unfold bind at 1.
  match goal with |- context [get_scale_offset ?w1] =>
    pose proof (get_scale_offset_trace w1) as Hget;
    destruct (get_scale_offset w1) as [[[scale offset]| |] w2]
  end; cbn in Hget.
  - match goal with |- context [bind ?m ?k w2] =>
      assert (Hq : quiet (bind m k))
    end.
    { apply quiet_bind; [apply quiet_while, quiet_train_body|].
      intros l. quiet_steps. }
    destruct (Hq w2) as (evs & Htr & Hsc).
    exists evs. split; [|assumption].
    rewrite Htr, Hget, <- !app_assoc. reflexivity.
  - exists []. simpl. rewrite Hget, <- !app_assoc. auto.
  - exists []. simpl. rewrite Hget, <- !app_assoc. auto.
Qed.

Lemma run_evaluate_episode_calls (fuel : nat) (w : World) :
  exists evs,
    w_trace (snd (run_evaluate_episode fuel w))
      = w_trace w ++ [EvReset; EvScalerGet] ++ evs
    /\ scaler_calls evs = [].
Proof.
  unfold run_evaluate_episode. unfold bind at 1. unfold call_env_reset at 1.
  destruct (env_reset (w_env w)) as [obs0 e0].
  unfold bind at 1.
  match goal with |- context [get_scale_offset ?w1] =>
    pose proof (get_scale_offset_trace w1) as Hget;
    destruct (get_scale_offset w1) as [[[scale offset]| |] w2]
  end; cbn in Hget.
  - match goal with |- context [bind ?m ?k w2] =>
      assert (Hq : quiet (bind m k))
    end.
    { apply quiet_bind; [apply quiet_loop_until_break, quiet_evaluate_body|].
      intros l. apply quiet_ret. }
    destruct (Hq w2) as (evs & Htr & Hsc).
    exists evs. split; [|assumption].
    rewrite Htr, Hget, <- !app_assoc. reflexivity.
  - exists []. simpl. rewrite Hget, <- !app_assoc. auto.
  - exists []. simpl. rewrite Hget, <- !app_assoc. auto.
Qed.

(** ** Properties of the steps of an episode *)

Lemma episode_steps_each mode (scale offset : list F) e a raw time steps e' a' :
  episode_steps mode scale offset e a raw time steps e' a' ->
  Forall (fun s : StepRecord =>
            exists (e1 : Env) (a1 : Agent) (e2 : Env) (a2 : Agent),
              step_spec mode scale offset e1 a1 s e2 a2) steps.
Proof.
  induction 1; constructor; eauto 6.
Qed.

Lemma episode_steps_time mode (scale offset : list F) e a raw time steps e' a' :
  episode_steps (Env := Env) (Agent := Agent) mode scale offset
    e a raw time steps e' a' ->
  forall k s, nth_error steps k = Some s ->
    s_time s = Nat.iter k (fun step => step +^ lit_1em3) time.
Proof.
  induction 1 as [e a raw time s e' a' Hraw Htime Hstep Hdone
                 |e a raw time s e1 a1 ss e' a' Hraw Htime Hstep Hdone Hrest IH];
    intros [|k] s' Hk; simpl in Hk.
  - injection Hk as <-. exact Htime.
  - destruct k; discriminate.
  - injection Hk as <-. exact Htime.
  - rewrite (IH k s' Hk).
    exact (eq_sym (@Nat.iter_succ_r k F (fun step => step +^ lit_1em3) time)).
Qed.

Lemma step_spec_unscaled_last mode (scale offset : list F)
    (e : Env) (a : Agent) (s : StepRecord) e' a' :
  step_spec mode scale offset e a s e' a' ->
  s_unscaled s <> [] /\ forall d, last (s_unscaled s) d = s_time s.
Proof.
  intros (Hu & _). rewrite Hu. split.
  - intros E. apply app_eq_nil in E. destruct E as [_ E]. discriminate.
  - intros d. apply last_last.
Qed.

(** With a pair whose last entries are 1 and 0, the last entry of a
    normalized observation is the time-step feature less 0, times 1. *)
Lemma step_spec_time_normalized mode (scale offset : list F)
    (e : Env) (a : Agent) (s : StepRecord) e' a' :
  step_spec mode scale offset e a s e' a' ->
  scale <> [] -> offset <> [] ->
  (forall d, last scale d = f1) -> (forall d, last offset d = f0) ->
  exists scaled,
    centre_and_scale scale offset (s_unscaled s) = Ok scaled
    /\ s_normalized s = astype_float32 scaled
    /\ forall d, last scaled d = (s_time s -^ f0) *^ f1.
Proof.
  intros Hstep Hsc Hoff Hls Hlo.
  destruct (step_spec_unscaled_last Hstep) as [Hne Hlast].
  destruct Hstep as (_ & Hn & _). unfold normalize in Hn.
  destruct (centre_and_scale scale offset (s_unscaled s)) as [scaled| |] eqn:Hc;
    try discriminate.
  injection Hn as Hn. exists scaled. repeat split; [now symmetry|].
  intros d. rewrite (centre_and_scale_last Hc Hne Hsc Hoff d).
  now rewrite Hlast, Hls, Hlo.
Qed.

(** ** The steps, entry by entry *)

Lemma zip_with_length (op : F -> F -> F) (a b : list F) :
  length a = length b -> length (zip_with op a b) = length a.
Proof.
  revert b. induction a as [|x a IH]; intros [|y b] Hlen;
    try discriminate; [reflexivity|].
  cbn [zip_with length]. f_equal. apply IH. now injection Hlen.
Qed.

Lemma zip_with_nth_error (op : F -> F -> F) (a b : list F) (i : nat) x y :
  nth_error a i = Some x -> nth_error b i = Some y ->
  nth_error (zip_with op a b) i = Some (op x y).
Proof.
  revert b i. induction a as [|x0 a IH]; intros [|y0 b] [|i];
    cbn [nth_error zip_with]; try discriminate.
  - now intros [= ->] [= ->].
  - apply IH.
Qed.

Lemma normalize_entrywise (scale offset obs normalized : list F) :
  normalize scale offset obs = Ok normalized ->
  length offset = length obs -> length scale = length obs ->
  normalized_entrywise scale offset obs normalized.
Proof.
  unfold normalize, centre_and_scale, broadcast. intros Hn Hoff Hsc.
  rewrite <- Hoff, Nat.eqb_refl in Hn.
  rewrite zip_with_length, <- Hsc, Nat.eqb_refl in Hn by congruence.
  injection Hn as <-. split.
  - unfold astype_float32.
    rewrite length_map, !zip_with_length; rewrite ?zip_with_length; congruence.
  - intros i o off sc Ho Hf Hs. unfold astype_float32.
    rewrite nth_error_map.
    rewrite (zip_with_nth_error fmul _ _ i (zip_with_nth_error fsub _ _ i Ho Hf) Hs).
    reflexivity.
Qed.

Lemma clip1_in_words (p : F) :
  fltb f1 (f0 -^ f1) = false -> clip1 neg_one f1 p = clipped_entry p.
Proof.
  intros Hord. unfold clip1, clipped_entry, neg_one.
  destruct (fltb p (f0 -^ f1)); [now rewrite Hord | reflexivity].
Qed.

(** The environment reports done at the last step, and at no other. *)
Lemma episode_steps_done mode scale offset (e : Env) (a : Agent) raw time
    steps e' a' :
  episode_steps mode scale offset e a raw time steps e' a' ->
  (exists s, last steps s = s /\ In s steps /\ s_done s = true)
  /\ Forall (fun s => s_done s = false) (removelast steps).
Proof.
  induction 1 as [e a raw time s e' a' Hr Ht Hs Hd
                 |e a raw time s e1 a1 ss e' a' Hr Ht Hs Hd Hrest
                    [(sl & Hl & Hin & Hdl) IHf]].
  - split; [|constructor]. exists s. cbn. auto.
  - assert (Hne : ss <> []).
    { intros ->. destruct Hin. }
    split.
    + exists sl. split; [|split; [right; exact Hin|exact Hdl]].
      destruct ss as [|s1 ss]; [congruence|]. exact Hl.
    + destruct ss as [|s1 ss]; [congruence|].
      change (removelast (s :: s1 :: ss)) with (s :: removelast (s1 :: ss)).
      constructor; assumption.
Qed.

Lemma step_spec_in_words mode scale offset (e : Env) (a : Agent) s e' a' :
  (mode = Training -> fltb f1 (f0 -^ f1) = false) ->
  step_spec mode scale offset e a s e' a' ->
  step_in_words mode scale offset s.
Proof.
  intros Hord (Hu & Hn & Hact & Hstep).
  split; [exact Hu|]. split.
  - intros Hoff Hsc. apply normalize_entrywise; assumption.
  - exists e, e', a, a'. split; [|exact Hstep].
    destruct mode; [|exact Hact].
    destruct Hact as (Hp & mapped & Hm & Ha).
    split; [exact Hp|]. exists mapped. split; [|exact Ha].
    unfold np_clip in Hm.
    rewrite (map_ext _ _ (fun p => clip1_in_words p (Hord eq_refl))) in Hm.
    exact Hm.
Qed.

Lemma episode_spec_in_words mode (w : World) scale offset steps w' :
  (mode = Training -> fltb f1 (f0 -^ f1) = false) ->
  episode_spec mode w scale offset steps w' ->
  Forall (step_in_words mode scale offset) steps
  /\ (exists s, last steps s = s /\ In s steps /\ s_done s = true)
  /\ Forall (fun s => s_done s = false) (removelast steps).
Proof.
  intros Hord (_ & _ & Hsteps & _).
  split; [|apply (episode_steps_done Hsteps)].
  apply episode_steps_each in Hsteps.
  eapply Forall_impl; [|exact Hsteps].
  intros s (e1 & a1 & e2 & a2 & Hstep).
  apply (step_spec_in_words Hord Hstep).
Qed.

(** The recursion of the pairwise sum never runs out of fuel: with the
    length of the array, or more, the result is the same. *)
Lemma pairwise_sum_fuel (add : F -> F -> F) (n : nat) :
  forall (a : list F) (fuel1 fuel2 : nat),
    length a <= n -> n <= fuel1 -> n <= fuel2 ->
    pairwise_sum add fuel1 a = pairwise_sum add fuel2 a.
Proof.
  induction n as [|n IH]; intros a fuel1 fuel2 Ha H1 H2.
  - destruct a; [|cbn in Ha; lia].
    destruct fuel1, fuel2; reflexivity.
  - destruct (Nat.ltb (length a) 8) eqn:Es;
      [destruct fuel1, fuel2; cbn [pairwise_sum]; rewrite ?Es; reflexivity|].
    destruct (Nat.leb (length a) 128) eqn:Eb;
      [destruct fuel1, fuel2; cbn [pairwise_sum]; rewrite ?Es, ?Eb;
       reflexivity|].
    apply Nat.leb_gt in Eb.
    destruct fuel1 as [|fuel1]; [lia|]. destruct fuel2 as [|fuel2]; [lia|].
    cbn [pairwise_sum]. rewrite Es.
    replace (Nat.leb (length a) 128) with false
      by (symmetry; apply Nat.leb_gt; exact Eb).
    assert (Hn2 : 1 <= length a / 2 - (length a / 2) mod 8 < length a).
    { pose proof (Nat.mod_upper_bound (length a / 2) 8 ltac:(lia)).
      pose proof (Nat.div_mod_eq (length a) 2).
      pose proof (Nat.mod_upper_bound (length a) 2 ltac:(lia)). lia. }
    f_equal; apply IH; try lia.
    + rewrite length_firstn. lia.
    + rewrite length_skipn. lia.
Qed.

(** Up to seven entries [np.sum] adds from left to right. *)
Lemma np_sum_with_small (add : F -> F -> F) (a : list F) :
  length a < 8 -> np_sum_with add a = add f0 (fold_left add a f0).
Proof.
  intros Hlen. unfold np_sum_with. f_equal.
  apply Nat.ltb_lt in Hlen.
  destruct (length a) as [|fuel] eqn:E; cbn [pairwise_sum];
    rewrite E, Hlen; reflexivity.
Qed.

(** * The claims about the episode runners *)

(** C2.  [run_train_episode] returns, with enough fuel, exactly when the
    episode unfolds as described: after the reset and the read of the
    scaler, every step records the raw observation with the appended
    time-step feature as unscaled observation, normalizes it as
    (obs - offset) * scale, samples an action from the policy on the
    normalized observation, clips it to [-1, 1], rescales it to the action
    bounds, steps the environment with it and records the reward; the steps
    go on until the environment reports done; and the result is made of the
    normalized observations, the actions, the rewards and the unscaled
    observations of the steps, in this order.  The second part says the
    same without the functions of the program, where 1 is not below -1:
    entry by entry the normalized observation is
    (obs_i - offset_i) * scale_i cast to float32, the sampled action has
    its entries below -1 replaced by -1 and those above 1 by 1, the last
    step is the only one at which the environment reports done, and the
    rewards returned are those of the steps cast to float32. *)
Theorem run_train_episode_spec (fuel : nat) (w : World) t w' :
  (run_train_episode fuel w = (Ok t, w') <->
   exists scale offset steps,
     episode_spec Training w scale offset steps w'
     /\ length steps <= fuel
     /\ widths_agree steps
     /\ t = trajectory_of steps)
  /\ (fltb f1 (f0 -^ f1) = false ->
      forall scale offset steps,
        episode_spec Training w scale offset steps w' ->
        Forall (step_in_words Training scale offset) steps
        /\ (exists s, last steps s = s /\ In s steps /\ s_done s = true)
        /\ Forall (fun s => s_done s = false) (removelast steps)
        /\ trajectory_of steps
           = (map s_normalized steps, map s_action steps,
              map f32 (map s_reward steps), map s_unscaled steps)).
Proof.
  split.
  - split.
    + apply run_train_episode_ok.
    + intros (scale & offset & steps & Hspec & Hlen & Hw & ->).
      eapply run_train_episode_complete; eassumption.
  - intros Hord scale offset steps Hspec.
    destruct (@episode_spec_in_words Training w scale offset steps w'
                (fun _ => Hord) Hspec) as (Hwords & Hlast & Hothers).
    repeat (split; [assumption|]). reflexivity.
Qed.

(** C9.  In an evaluation episode the action stepped with is
    [action_mapping] of the very output of [policy_predict]: nothing clips
    it to [-1, 1] first.  In a training episode it is [action_mapping] of
    the sampled action clipped to [-1, 1] (and cast to float32). *)
Theorem evaluation_does_not_clip (fuel : nat) (w : World) :
  (forall v w',
     run_evaluate_episode fuel w = (Ok v, w') ->
     exists scale offset steps,
       episode_spec Evaluation w scale offset steps w'
       /\ Forall (fun s : StepRecord =>
                    exists (e : Env) (a a' : Agent),
                      policy_predict a (s_normalized s) = (s_policy s, a')
                      /\ action_mapping (s_policy s)
                           (action_low e) (action_high e) = Ok (s_action s))
                 steps)
  /\ (forall t w',
        run_train_episode fuel w = (Ok t, w') ->
        exists scale offset steps,
          episode_spec Training w scale offset steps w'
          /\ Forall (fun s : StepRecord =>
                       exists (e : Env) (a a' : Agent) mapped,
                         policy_sample a (s_normalized s) = (s_policy s, a')
                         /\ action_mapping (np_clip (s_policy s) neg_one f1)
                              (action_low e) (action_high e) = Ok mapped
                         /\ s_action s = astype_float32 mapped)
                    steps).
Proof.
  split.
  - intros v w' Hrun. apply run_evaluate_episode_ok in Hrun.
    destruct Hrun as (scale & offset & steps & Hspec & _).
    exists scale, offset, steps. split; [assumption|].
    destruct Hspec as (_ & _ & Hsteps & _).
    apply episode_steps_each in Hsteps.
    eapply Forall_impl; [|exact Hsteps].
    intros s (e1 & a1 & e2 & a2 & _ & _ & (Hp & Hm) & _). eauto.
  - intros t w' Hrun. apply run_train_episode_ok in Hrun.
    destruct Hrun as (scale & offset & steps & Hspec & _).
    exists scale, offset, steps. split; [assumption|].
    destruct Hspec as (_ & _ & Hsteps & _).
    apply episode_steps_each in Hsteps.
    eapply Forall_impl; [|exact Hsteps].
    intros s (e1 & a1 & e2 & a2 & _ & _ & (Hp & mapped & Hm & Ha) & _).
    eauto 8.
Qed.

(** C10.  In one episode, training or evaluation, the scaler is read once,
    right after the reset and before the first step, and never again,
    whatever the outcome of the episode; and when the episode returns, its
    steps are those of the episode ([episode_spec], which ties every step
    to the run: the observation it starts from, the unscaled and the
    normalized observation, the action, and what the environment
    answered), and every observation of the episode is normalized with the
    pair read then. *)
Theorem scaler_read_once_per_episode (fuel : nat) (w : World) :
  (exists evs,
     w_trace (snd (run_train_episode fuel w))
       = w_trace w ++ [EvReset; EvScalerGet] ++ evs
     /\ scaler_calls evs = [])
  /\ (exists evs,
        w_trace (snd (run_evaluate_episode fuel w))
          = w_trace w ++ [EvReset; EvScalerGet] ++ evs
        /\ scaler_calls evs = [])
  /\ (forall t w',
        run_train_episode fuel w = (Ok t, w') ->
        exists scale offset steps,
          episode_spec Training w scale offset steps w'
          /\ set_last (fst (scaler_get (w_scaler w))) f1 = Ok scale
          /\ set_last (snd (scaler_get (w_scaler w))) f0 = Ok offset
          /\ t = trajectory_of steps
          /\ w_trace w' = w_trace w ++ [EvReset; EvScalerGet]
                            ++ flat_map (step_events Training) steps
          /\ Forall (fun s : StepRecord =>
                       normalize scale offset (s_unscaled s)
                       = Ok (s_normalized s)) steps)
  /\ (forall v w',
        run_evaluate_episode fuel w = (Ok v, w') ->
        exists scale offset steps,
          episode_spec Evaluation w scale offset steps w'
          /\ set_last (fst (scaler_get (w_scaler w))) f1 = Ok scale
          /\ set_last (snd (scaler_get (w_scaler w))) f0 = Ok offset
          /\ w_trace w' = w_trace w ++ [EvReset; EvScalerGet]
                            ++ flat_map (step_events Evaluation) steps
          /\ Forall (fun s : StepRecord =>
                       normalize scale offset (s_unscaled s)
                       = Ok (s_normalized s)) steps).
Proof.
  split; [apply run_train_episode_calls|].
  split; [apply run_evaluate_episode_calls|].
  split.
  - intros t w' Hrun. apply run_train_episode_ok in Hrun.
    destruct Hrun as (scale & offset & steps & Hspec & _ & _ & Ht).
    exists scale, offset, steps. split; [exact Hspec|].
    destruct Hspec as (Hsc & Hoff & Hsteps & _ & Htr).
    repeat split; try assumption.
    apply episode_steps_each in Hsteps.
    eapply Forall_impl; [|exact Hsteps].
    intros s (e1 & a1 & e2 & a2 & _ & Hn & _). exact Hn.
  - intros v w' Hrun. apply run_evaluate_episode_ok in Hrun.
    destruct Hrun as (scale & offset & steps & Hspec & _).
    exists scale, offset, steps. split; [exact Hspec|].
    destruct Hspec as (Hsc & Hoff & Hsteps & _ & Htr).
    repeat split; try assumption.
    apply episode_steps_each in Hsteps.
    eapply Forall_impl; [|exact Hsteps].
    intros s (e1 & a1 & e2 & a2 & _ & Hn & _). exact Hn.
Qed.

Lemma episodes_run_not_updated (fuel n : nat) (w : World) ts w' :
  episodes_run fuel n w ts w' ->
  forall s, not_updated s (w_scaler w) ->
    not_updated s (w_scaler w') /\ Forall (episode_of_batch s) ts.
Proof.
  induction 1 as [w|n w t w1 ts w' Hrun Hrest IH]; intros s Hs.
  - split; [assumption | constructor].
  - apply run_train_episode_ok in Hrun.
    destruct Hrun as (scale & offset & steps & Hspec & _ & _ & Ht).
    assert (Hs1 : not_updated s (w_scaler w1)).
    { destruct Hspec as (_ & _ & _ & -> & _). now constructor. }
    destruct (IH s Hs1) as [Hs' Hts].
    split; [assumption|]. constructor; [|assumption].
    exists w, w1, scale, offset, steps. auto.
Qed.

(** C1.  When [collect_trajectories] returns, the episodes of the batch
    have been run one after the other, the scaler has been read once in
    each of them and updated in none, and then [scaler.update] has been
    called, once, as the last call of the batch, with the concatenation of
    the unscaled observations of the episodes: every pair (scale, offset)
    that normalized an observation of the batch was read from the scaler
    as it was before that update. *)
Theorem collect_trajectories_updates_scaler_last (fuel : nat) (episodes : Z)
    (w : World) obs actions rewards w' :
  collect_trajectories fuel episodes w = (Ok (obs, actions, rewards), w') ->
  exists ts wn evs,
    episodes_run fuel (Z.to_nat episodes) w ts wn
    /\ length ts = Z.to_nat episodes
    /\ Forall (episode_of_batch (w_scaler w)) ts
    /\ not_updated (w_scaler w) (w_scaler wn)
    /\ w_trace wn = w_trace w ++ evs
    /\ scaler_calls evs = repeat EvScalerGet (Z.to_nat episodes)
    /\ w' = updated wn (concat (map (@traj_unscaled F) ts))
    /\ scaler_calls (evs ++ [EvScalerUpdate (concat (map (@traj_unscaled F) ts))])
       = repeat EvScalerGet (Z.to_nat episodes)
           ++ [EvScalerUpdate (concat (map (@traj_unscaled F) ts))]
    /\ obs = concat (map (@traj_obs F) ts)
    /\ actions = concat (map (@traj_actions F) ts)
    /\ rewards = concat (map (@traj_rewards F) ts).
Proof.
  intros Hrun. apply collect_trajectories_ok in Hrun.
  destruct Hrun as (ts & wn & Hts & Hw' & Ho & Ha & Hr).
  destruct (episodes_run_scaler_calls Hts) as (Hlen & evs & Htr & Hsc).
  destruct (episodes_run_not_updated Hts (not_updated_same (w_scaler w)))
    as [Hwn Heach].
  exists ts, wn, evs.
  split; [assumption|]. split; [assumption|]. split; [assumption|].
  split; [assumption|]. split; [assumption|]. split; [assumption|].
  split; [assumption|]. split; [|auto].
  rewrite scaler_calls_app, Hsc. reflexivity.
Qed.

Lemma episode_spec_time_step_untouched mode (w : World) scale offset steps w' :
  (forall x : F, x -^ f0 = x) -> (forall x : F, x *^ f1 = x) ->
  episode_spec mode w scale offset steps w' ->
  time_step_untouched scale offset steps.
Proof.
  intros Hsub Hmul (Hsc & Hoff & Hsteps & _).
  apply set_last_last in Hsc, Hoff.
  destruct Hsc as [Hsne Hsl], Hoff as [Hone Hol].
  repeat split; try assumption.
  apply episode_steps_each in Hsteps.
  eapply Forall_impl; [|exact Hsteps].
  intros s (e1 & a1 & e2 & a2 & Hstep).
  destruct (step_spec_time_normalized Hstep Hsne Hone Hsl Hol)
    as (scaled & Hc & Hn & Hl).
  exists scaled. repeat split; try assumption.
  - apply (step_spec_unscaled_last Hstep).
  - intros d. now rewrite Hl, Hsub, Hmul.
Qed.

(** C3.  In a training episode and in an evaluation episode, whatever the
    scaler holds, the pair used to normalize ends with the scale 1 and the
    offset 0, so the last entry of (obs - offset) * scale is
    (step - 0) * 1, the time-step feature itself as soon as subtracting 0
    and multiplying by 1 change nothing, which is so in exact arithmetic and
    in binary64. *)
Theorem time_step_feature_not_scaled
    (Hsub : forall x : F, x -^ f0 = x) (Hmul : forall x : F, x *^ f1 = x)
    (fuel : nat) (w : World) :
  (forall t w',
     run_train_episode fuel w = (Ok t, w') ->
     exists scale offset steps,
       episode_spec Training w scale offset steps w'
       /\ t = trajectory_of steps
       /\ time_step_untouched scale offset steps)
  /\ (forall v w',
        run_evaluate_episode fuel w = (Ok v, w') ->
        exists scale offset steps,
          episode_spec Evaluation w scale offset steps w'
          /\ time_step_untouched scale offset steps).
Proof.
  split.
  - intros t w' Hrun. apply run_train_episode_ok in Hrun.
    destruct Hrun as (scale & offset & steps & Hspec & _ & _ & Ht).
    exists scale, offset, steps.
    split; [assumption | split; [assumption|]].
    apply (episode_spec_time_step_untouched Hsub Hmul Hspec).
  - intros v w' Hrun. apply run_evaluate_episode_ok in Hrun.
    destruct Hrun as (scale & offset & steps & Hspec & _).
    exists scale, offset, steps. split; [assumption|].
    apply (episode_spec_time_step_untouched Hsub Hmul Hspec).
Qed.

(** The time-step feature of the step of index [k] is [k] additions of
    1e-3 to 0.0, in training and in evaluation. *)
Lemma episode_spec_time_feature mode (w : World) scale offset steps w' :
  episode_spec mode w scale offset steps w' ->
  forall k s, nth_error steps k = Some s ->
    s_time s = time_feature k
    /\ s_unscaled s = s_raw s ++ [time_feature k].
Proof.
  intros (_ & _ & Hsteps & _) k s Hk.
  pose proof (episode_steps_time Hsteps k Hk) as Ht.
  split; [exact Ht|].
  apply episode_steps_each in Hsteps.
  rewrite Forall_forall in Hsteps.
  destruct (Hsteps s (nth_error_In _ _ Hk)) as (e1 & a1 & e2 & a2 & Hu & _).
  rewrite Hu, Ht. reflexivity.
Qed.

Lemma run_train_episode_time_feature (fuel : nat) (w : World) t w' :
  run_train_episode fuel w = (Ok t, w') ->
  forall k row, nth_error (traj_unscaled t) k = Some row ->
    forall d, last row d = time_feature k.
Proof.
  intros Hrun k row Hk d. apply run_train_episode_ok in Hrun.
  destruct Hrun as (scale & offset & steps & Hspec & _ & _ & ->).
  unfold traj_unscaled, trajectory_of in Hk. cbn [snd] in Hk.
  rewrite nth_error_map in Hk.
  destruct (nth_error steps k) as [s|] eqn:Hs; [|discriminate].
  injection Hk as <-.
  destruct (episode_spec_time_feature Hspec k Hs) as [_ ->].
  apply last_last.
Qed.

Lemma run_evaluate_episode_time_feature (fuel : nat) (w : World) v w' :
  run_evaluate_episode fuel w = (Ok v, w') ->
  exists scale offset steps,
    episode_spec Evaluation w scale offset steps w'
    /\ forall k s, nth_error steps k = Some s ->
         s_unscaled s = s_raw s ++ [time_feature k].
Proof.
  intros Hrun. apply run_evaluate_episode_ok in Hrun.
  destruct Hrun as (scale & offset & steps & Hspec & _).
  exists scale, offset, steps. split; [assumption|].
  intros k s Hk. apply (episode_spec_time_feature Hspec k Hk).
Qed.

End ScriptFacts.

(** * The training loop *)

Section MainFacts.
Context {F : Type} {FL : Float F} {FS : FloatSqrt F} {SP : ScalarPromotion}.
Context {Env Agent Scaler : Type}.
Context {GE : GymEnv F Env} {PA : PolicyAgent F Agent} {UT : Utils F Scaler}.

Local Abbreviation World := (@World F Env Agent Scaler).
Local Abbreviation M := (@M F Env Agent Scaler).

Lemma bind_ext_ok (A B : Type) (m : M A) (k1 k2 : A -> M B) (w : World) :
  (forall a w1, m w = (Ok a, w1) -> k1 a w1 = k2 a w1) ->
  bind m k1 w = bind m k2 w.
Proof.
  intros H. unfold bind. destruct (m w) as [[a| |] w1]; auto.
Qed.

(** One batch of the training loop: what it collects, and the calls it
    makes to the agent with it. *)
Lemma main_body_ok (fuel : nat) (args : Args F) (episode : Z) (w : World)
    ep' w' :
  main_body fuel args episode w = (Ok ep', w') ->
  exists obs actions rewards w1 evs,
    collect_trajectories fuel (episodes_per_batch args) w
      = (Ok (obs, actions, rewards), w1)
    /\ ep' = (episode + episodes_per_batch args)%Z
    /\ let pred_values := fst (value_predict (w_agent w1) obs) in
       let scale_rewards :=
         map (fun r => f32 (r *^ f32 (f1 -^ gamma args))) rewards in
       let advantages :=
         calc_gae scale_rewards pred_values (gamma args) (lam args) in
       let discount_sum_rewards :=
         calc_discount_sum_rewards scale_rewards (gamma args) in
       w_trace w' =
         w_trace w1
         ++ [EvValuePredict obs;
             EvPolicyLearn obs actions
               (astype_float32
                  (map (fun a => (a -^ np_mean advantages)
                                 /^ (np_std advantages +^ lit_1em6))
                       advantages));
             EvValueLearn obs (astype_float32 discount_sum_rewards)]
         ++ evs.
Proof.
  unfold main_body. unfold bind at 1.
  destruct (collect_trajectories fuel (episodes_per_batch args) w)
    as [[[[obs actions] rewards]| |] w1] eqn:Hc; try discriminate.
  unfold bind at 1. unfold call_agent at 1.
  destruct (value_predict (w_agent w1) obs) as [pred a1] eqn:Hv.
  unfold bind at 1. unfold call_agent at 1. cbn [w_agent emit].
  match goal with |- context [policy_learn a1 obs actions ?adv] =>
    destruct (policy_learn a1 obs actions adv) as [[policy_loss kl] a2]
  end.
  unfold bind at 1. unfold call_agent at 1. cbn [w_agent emit].
  match goal with |- context [value_learn a2 obs ?dsr] =>
    destruct (value_learn a2 obs dsr) as [value_loss a3]
  end.
  unfold bind at 1. unfold log_info at 1.
  cbn [w_env w_agent w_scaler w_trace emit].
  intros Hrest.
  exists obs, actions, rewards, w1.
  rewrite Hv. cbn [fst].
  match type of Hrest with
  | (if ?c1 then _ else _) ?w2 = _ =>
      set (wl := w2) in Hrest;
      assert (Hwl : w_trace wl =
                    w_trace w1
                    ++ [EvValuePredict obs;
                        EvPolicyLearn obs actions
                          (astype_float32
                             (normalize_advantages
                                (calc_gae (scale_rewards args rewards) pred
                                   (gamma args) (lam args))));
                        EvValueLearn obs
                          (astype_float32
                             (calc_discount_sum_rewards
                                (scale_rewards args rewards) (gamma args)))]
                    ++ [EvLogTrain (episode + episodes_per_batch args)
                          (float32_div_int (np_sum_float32 rewards)
                             (episodes_per_batch args))
                          policy_loss kl value_loss])
        by (subst wl; cbn [w_trace emit]; rewrite <- !app_assoc; reflexivity);
      clearbody wl;
      destruct c1; [discriminate|]
  end.
  match type of Hrest with
  | (if ?c2 then _ else _) _ = _ => destruct c2
  end.
  - unfold bind at 1 in Hrest.
    destruct (run_evaluate_episode_calls fuel wl) as (evs & Htr & _).
    destruct (run_evaluate_episode fuel wl) as [[v| |] w3];
      try discriminate.
    unfold bind, log_info, ret, emit in Hrest.
    injection Hrest as <- <-. cbn [w_trace snd] in *.
    eexists. split; [reflexivity|]. split; [reflexivity|].
    rewrite Htr, Hwl. unfold normalize_advantages, scale_rewards.
    rewrite <- !app_assoc. reflexivity.
  - unfold ret in Hrest. injection Hrest as <- <-.
    eexists. split; [reflexivity|]. split; [reflexivity|].
    rewrite Hwl. unfold normalize_advantages, scale_rewards. reflexivity.
Qed.

Lemma for_range_main_body_ok (fuel : nat) (args : Args F) (n : nat) :
  forall (episode : Z) (w : World) ep' w',
    for_range (main_body fuel args) n episode w = (Ok ep', w') ->
    ep' = (episode + Z.of_nat n * episodes_per_batch args)%Z.
Proof.
  induction n as [|n IH]; intros episode w ep' w'.
  - simpl. intros [= <- <-]. lia.
  - cbn [for_range]. unfold bind at 1.
    destruct (main_body fuel args episode w) as [[e1| |] w1] eqn:Hb;
      try discriminate.
    apply main_body_ok in Hb.
    destruct Hb as (obs & actions & rewards & w2 & evs & _ & -> & _).
    intros Hr. apply IH in Hr. lia.
Qed.

(** A bounded loop fails, or runs out of fuel, only where its body does. *)
Lemma for_range_not_ok (L : Type) (body : L -> M L) (n : nat) :
  forall (l : L) (w : World) o w',
    for_range body n l w = (o, w') -> is_ok o = false ->
    exists l1 w1, body l1 w1 = (o, w').
Proof.
  induction n as [|n IH]; intros l w o w'; cbn [for_range].
  - intros [= <- <-]. discriminate.
  - unfold bind.
    destruct (body l w) as [[l1| |] w1] eqn:Hb.
    + apply IH.
    + intros [= <- <-] _. eauto.
    + intros [= <- <-] _. eauto.
Qed.

(** From the episode count [episode] on, the [while] loop is a bounded
    loop: as many batches as it takes to reach [num_episodes]. *)
Lemma main_loop_from (fuel : nat) (args : Args F) (n : nat) :
  (1 <= episodes_per_batch args)%Z ->
  forall (loop_fuel : nat) (episode : Z) (w : World),
    n = Z.to_nat ((num_episodes args - episode + episodes_per_batch args - 1)
                  / episodes_per_batch args) ->
    n <= loop_fuel ->
    while (fun episode => Z.ltb episode (num_episodes args))
      (main_body fuel args) loop_fuel episode w
    = for_range (main_body fuel args) n episode w.
Proof.
  intros Hepb.
  induction n as [|n IH]; intros loop_fuel episode w Hn Hfuel.
  - assert (Hq : ((num_episodes args - episode + episodes_per_batch args - 1)
                  / episodes_per_batch args <= 0)%Z) by lia.
    assert (Hlt : (num_episodes args - episode + episodes_per_batch args - 1
                   < episodes_per_batch args)%Z).
    { destruct (Z.lt_ge_cases
                  (num_episodes args - episode + episodes_per_batch args - 1)
                  (episodes_per_batch args)) as [H|H]; [exact H|].
      assert (1 <= (num_episodes args - episode + episodes_per_batch args - 1)
                   / episodes_per_batch args)%Z
        by (apply Z.div_le_lower_bound; lia).
      lia. }
    apply while_finished. apply Z.ltb_ge. lia.
  - assert (Hq : (1 <= (num_episodes args - episode + episodes_per_batch args - 1)
                       / episodes_per_batch args)%Z) by lia.
    assert (Hge : (episodes_per_batch args
                   <= num_episodes args - episode + episodes_per_batch args - 1)%Z).
    { destruct (Z.lt_ge_cases
                  (num_episodes args - episode + episodes_per_batch args - 1)
                  (episodes_per_batch args)) as [H|H]; [|lia].
      assert ((num_episodes args - episode + episodes_per_batch args - 1)
              / episodes_per_batch args < 1)%Z
        by (apply Z.div_lt_upper_bound; lia).
      lia. }
    destruct loop_fuel as [|loop_fuel]; [lia|].
    cbn [while for_range].
    replace (Z.ltb episode (num_episodes args)) with true
      by (symmetry; apply Z.ltb_lt; lia).
    apply bind_ext_ok. intros e1 w1 Hb.
    apply main_body_ok in Hb.
    destruct Hb as (obs & actions & rewards & w2 & evs & _ & -> & _).
    apply IH; [|lia].
    replace (num_episodes args - (episode + episodes_per_batch args)
             + episodes_per_batch args - 1)%Z
      with (num_episodes args - episode + episodes_per_batch args - 1
            + (-1) * episodes_per_batch args)%Z by lia.
    rewrite Z.div_add by lia. lia.
Qed.

Lemma batches_needed_reaches (args : Args F) :
  (1 <= episodes_per_batch args)%Z ->
  (num_episodes args
   <= Z.of_nat (batches_needed args) * episodes_per_batch args)%Z
  /\ forall k : nat,
       (num_episodes args <= Z.of_nat k * episodes_per_batch args)%Z ->
       batches_needed args <= k.
Proof.
  intros Hepb. unfold batches_needed.
  set (a := (num_episodes args + episodes_per_batch args - 1)%Z).
  set (b := episodes_per_batch args) in *.
  pose proof (Z.div_mod a b ltac:(lia)) as Hdm.
  pose proof (Z.mod_pos_bound a b ltac:(lia)) as Hmod.
  split.
  - destruct (Z.le_gt_cases 0 (a / b)) as [Hq|Hq].
    + rewrite Z2Nat.id by exact Hq. subst a. nia.
    + replace (Z.to_nat (a / b)) with 0 by lia. subst a. nia.
  - intros k Hk.
    destruct (Z.le_gt_cases (a / b) (Z.of_nat k)) as [Hq|Hq]; [lia|].
    exfalso. subst a. nia.
Qed.

(** C6.  With at least one episode per batch, the training loop stops:
    given fuel for [batches_needed] iterations it is the bounded loop that
    runs the batch body exactly [batches_needed] times (fewer only if a
    batch itself fails), and [batches_needed] is the first number of
    batches at which the count of episodes reaches or exceeds
    [num_episodes]; when it returns, the count is that many batches; and
    when it does not return, a batch has raised or has not terminated. *)
Theorem main_loop_terminates (fuel loop_fuel : nat) (args : Args F) (w : World) :
  (1 <= episodes_per_batch args)%Z ->
  batches_needed args <= loop_fuel ->
  main_loop loop_fuel fuel args w
    = for_range (main_body fuel args) (batches_needed args) 0%Z w
  /\ (num_episodes args
      <= Z.of_nat (batches_needed args) * episodes_per_batch args)%Z
  /\ (forall k : nat,
        (num_episodes args <= Z.of_nat k * episodes_per_batch args)%Z ->
        batches_needed args <= k)
  /\ (forall ep' w',
        main_loop loop_fuel fuel args w = (Ok ep', w') ->
        ep' = (Z.of_nat (batches_needed args) * episodes_per_batch args)%Z)
  /\ (forall o w',
        main_loop loop_fuel fuel args w = (o, w') -> is_ok o = false ->
        exists episode w1, main_body fuel args episode w1 = (o, w')).
Proof.
  intros Hepb Hfuel.
  assert (Heq : main_loop loop_fuel fuel args w
                = for_range (main_body fuel args) (batches_needed args) 0%Z w).
  { unfold main_loop. apply main_loop_from; [assumption| |assumption].
    unfold batches_needed. do 2 f_equal. lia. }
  destruct (batches_needed_reaches args Hepb) as [Hreach Hleast].
  split; [assumption|]. split; [assumption|]. split; [assumption|].
  split.
  - intros ep' w' Hrun. rewrite Heq in Hrun.
    apply for_range_main_body_ok in Hrun. lia.
  - intros o w' Hrun. rewrite Heq in Hrun.
    apply (for_range_not_ok _ _ _ _ Hrun).
Qed.

End MainFacts.

(** * Exact arithmetic *)

Module ExactFacts.
Import Exact.
Local Open Scope Qc_scope.

Lemma exact_sub_0 (x : Qc) : fsub x f0 = x.
Proof. simpl. ring. Qed.

Lemma exact_mul_1 (x : Qc) : fmul x f1 = x.
Proof. simpl. ring. Qed.

(** The discounted sums of a constant sequence, from the last one back. *)
Lemma discount_sum_cons (r gamma : Qc) (rest : list Qc) :
  SpecModels.calc_discount_sum_rewards (r :: rest) gamma
  = (r + gamma * nth 0 (SpecModels.calc_discount_sum_rewards rest gamma) 0)
      :: SpecModels.calc_discount_sum_rewards rest gamma.
Proof.
  cbn [SpecModels.calc_discount_sum_rewards].
  destruct (SpecModels.calc_discount_sum_rewards rest gamma) as [|next tail];
    cbn [nth fadd fmul float_exact]; [|reflexivity].
  f_equal. ring.
Qed.

Lemma discount_sum_constant_head (r gamma : Qc) (n : nat) :
  gamma <> 1 ->
  nth 0 (SpecModels.calc_discount_sum_rewards (repeat r n) gamma) 0
  = r * (1 - gamma ^ n) / (1 - gamma).
Proof.
  intros Hg.
  assert (Hd : 1 - gamma <> 0).
  { intros E. apply Hg. symmetry.
    transitivity (gamma + (1 - gamma)); [ring | rewrite E; ring]. }
  induction n as [|n IH].
  - cbn [repeat SpecModels.calc_discount_sum_rewards nth Qcpower]. field. exact Hd.
  - cbn [repeat]. rewrite discount_sum_cons. cbn [nth]. rewrite IH.
    cbn [Qcpower]. field. exact Hd.
Qed.

Lemma discount_sum_constant_nth (r gamma : Qc) (n i : nat) :
  (i < n)%nat ->
  nth i (SpecModels.calc_discount_sum_rewards (repeat r n) gamma) 0
  = nth 0 (SpecModels.calc_discount_sum_rewards (repeat r (n - i)) gamma) 0.
Proof.
  revert i. induction n as [|n IH]; intros i Hi; [lia|].
  destruct i as [|i].
  - rewrite Nat.sub_0_r. reflexivity.
  - cbn [repeat]. rewrite discount_sum_cons. cbn [nth].
    rewrite IH by lia. reflexivity.
Qed.

(** C5, amended.  In exact arithmetic and for a discount factor other than
    1, the discounted sum of a constant reward sequence of length n is, at
    the index i, reward * (1 - gamma^(n-i)) / (1 - gamma); for the rewards
    [1,1,1,1,1] and gamma = 0.99 the value at index 0 is
    1 + 0.99 + 0.99^2 + 0.99^3 + 0.99^4 = 4.90099501. *)
Theorem discount_sum_constant :
  (forall (r gamma : Qc) (n i : nat),
     gamma <> 1 -> (i < n)%nat ->
     nth i (SpecModels.calc_discount_sum_rewards (repeat r n) gamma) 0
     = r * (1 - gamma ^ (n - i)) / (1 - gamma))
  /\ (let g := Q2Qc (99 # 100) in
      nth 0 (SpecModels.calc_discount_sum_rewards [1; 1; 1; 1; 1] g) 0
      = 1 + g + g ^ 2 + g ^ 3 + g ^ 4
      /\ 1 + g + g ^ 2 + g ^ 3 + g ^ 4 = Q2Qc (490099501 # 100000000)).
Proof.
  split.
  - intros r gamma n i Hg Hi.
    rewrite discount_sum_constant_nth by exact Hi.
    apply discount_sum_constant_head. exact Hg.
  - split; apply Qc_is_canon; vm_compute; reflexivity.
Qed.

(** Counterexample to C5 as stated: at the discount factor 1 the closed
    form divides by zero while the discounted sum is the plain sum. *)
Lemma discount_sum_closed_form_fails_at_one :
  ~ (forall (r gamma : Qc) (n i : nat),
       (i < n)%nat ->
       nth i (SpecModels.calc_discount_sum_rewards (repeat r n) gamma) 0
       = r * (1 - gamma ^ (n - i)) / (1 - gamma)).
Proof.
  intros H. specialize (H 1 1 1%nat 0%nat (Nat.lt_0_succ 0)).
  apply (f_equal this) in H. vm_compute in H. discriminate H.
Qed.

Lemma exact_of_succ (k : nat) :
  f_of_Z (Z.of_nat (S k)) = f_of_Z (Z.of_nat k) + 1.
Proof.
  cbn [f_of_Z float_exact]. apply Qc_is_canon.
  unfold Qcplus, Q2Qc. cbn [this]. rewrite !Qred_correct.
  rewrite Nat2Z.inj_succ. unfold Z.succ. rewrite inject_Z_plus.
  reflexivity.
Qed.

(** In exact arithmetic the accumulated time-step feature is a product. *)
Lemma exact_time_feature (k : nat) :
  time_feature k = f_of_Z (Z.of_nat k) * lit_1em3.
Proof.
  induction k as [|k IH].
  - cbn [time_feature Nat.iter]. cbn [f0 f_of_Z lit_1em3 float_exact Z.of_nat].
    apply Qc_is_canon. vm_compute. reflexivity.
  - change (time_feature (S k)) with (time_feature k +^ lit_1em3).
    rewrite IH, exact_of_succ. cbn [fadd fmul float_exact]. ring.
Qed.

Lemma exact_time_increasing (k : nat) :
  time_feature k < time_feature (S k).
Proof.
  change (time_feature (S k)) with (time_feature k + lit_1em3).
  set (x := time_feature k).
  apply Qclt_minus_iff.
  replace (x + lit_1em3 + - x) with (lit_1em3 : Qc) by ring.
  vm_compute. reflexivity.
Qed.

Lemma exact_of_nat_nonzero (k : nat) : f_of_Z (Z.of_nat (S k)) <> 0.
Proof.
  cbn [f_of_Z float_exact]. intros E.
  apply (f_equal this) in E. unfold Q2Qc in E. cbn [this] in E.
  assert (H : (inject_Z (Z.of_nat (S k)) == 0)%Q).
  { rewrite <- (Qred_correct (inject_Z (Z.of_nat (S k)))), E. reflexivity. }
  unfold Qeq, inject_Z in H. cbn [Qnum Qden] in H. lia.
Qed.

(** *** Sums

    In exact arithmetic the order of the additions is immaterial: NumPy's
    pairwise sum is the sum. *)

Lemma total_app (xs ys : list Qc) :
  fold_right Qcplus 0 (xs ++ ys)
  = fold_right Qcplus 0 xs + fold_right Qcplus 0 ys.
Proof.
  induction xs as [|x xs IH]; cbn [app fold_right]; [ring|].
  rewrite IH. ring.
Qed.

Lemma firstn_plus (A : Type) (n m : nat) (a : list A) :
  firstn (n + m) a = firstn n a ++ firstn m (skipn n a).
Proof.
  revert a. induction n as [|n IH]; intros a; [reflexivity|].
  destruct a as [|x a]; cbn [Nat.add firstn skipn app].
  - now rewrite firstn_nil.
  - now rewrite IH.
Qed.

Section Additions.
Variable add : Qc -> Qc -> Qc.
Hypothesis Hadd : forall x y, add x y = x + y.

Lemma fold_left_total (xs : list Qc) (a : Qc) :
  fold_left add xs a = a + fold_right Qcplus 0 xs.
Proof.
  revert a. induction xs as [|x xs IH]; intros a; cbn [fold_left fold_right].
  - ring.
  - rewrite IH, Hadd. ring.
Qed.

Lemma zip_with_total (r c : list Qc) :
  length r = length c ->
  fold_right Qcplus 0 (zip_with add r c)
  = fold_right Qcplus 0 r + fold_right Qcplus 0 c.
Proof.
  revert c. induction r as [|x r IH]; intros [|y c] Hlen;
    try discriminate; cbn [zip_with fold_right]; [ring|].
  rewrite IH, Hadd by now injection Hlen. ring.
Qed.

Lemma add_blocks_total (k : nat) :
  forall r a : list Qc,
    length r = 8%nat -> (8 * k <= length a)%nat ->
    length (add_blocks add r a k) = 8%nat
    /\ fold_right Qcplus 0 (add_blocks add r a k)
       = fold_right Qcplus 0 r + fold_right Qcplus 0 (firstn (8 * k) a).
Proof.
  induction k as [|k IH]; intros r a Hr Ha.
  - rewrite Nat.mul_0_r. cbn [add_blocks firstn fold_right].
    split; [exact Hr|ring].
  - cbn [add_blocks].
    assert (H8 : length (firstn 8 a) = 8%nat)
      by (rewrite length_firstn; lia).
    destruct (IH (zip_with add r (firstn 8 a)) (skipn 8 a)) as [Hlen Htot].
    + rewrite zip_with_length; congruence.
    + rewrite length_skipn. lia.
    + split; [exact Hlen|].
      rewrite Htot, zip_with_total by congruence.
      replace (8 * S k)%nat with (8 + 8 * k)%nat by lia.
      rewrite firstn_plus, total_app. ring.
Qed.

Lemma eight_total (r : list Qc) :
  length r = 8%nat ->
  add (add (add (nth 0 r 0) (nth 1 r 0)) (add (nth 2 r 0) (nth 3 r 0)))
      (add (add (nth 4 r 0) (nth 5 r 0)) (add (nth 6 r 0) (nth 7 r 0)))
  = fold_right Qcplus 0 r.
Proof.
  intros Hr.
  do 8 (destruct r as [|? r]; [discriminate|]).
  destruct r; [|discriminate].
  cbn [nth fold_right]. rewrite !Hadd. ring.
Qed.

Lemma sum_block_total (a : list Qc) :
  (8 <= length a)%nat -> sum_block add a = fold_right Qcplus 0 a.
Proof.
  intros Hlen. unfold sum_block.
  set (n := length a) in *.
  assert (Hdm : (n = 8 * (n / 8) + n mod 8)%nat) by apply Nat.div_mod_eq.
  assert (Hq : (1 <= n / 8)%nat)
    by (apply Nat.div_le_lower_bound; lia).
  destruct (add_blocks_total (n / 8 - 1) (firstn 8 a) (skipn 8 a))
    as [Hr Htot].
  - rewrite length_firstn. fold n. lia.
  - rewrite length_skipn. fold n. lia.
  - rewrite fold_left_total.
    change (@f0 Qc float_exact) with 0.
    rewrite (eight_total _ Hr), Htot, <- total_app, <- firstn_plus.
    replace (8 + 8 * (n / 8 - 1))%nat with (n - n mod 8)%nat by lia.
    rewrite <- total_app, firstn_skipn. reflexivity.
Qed.

Lemma pairwise_sum_total (fuel : nat) :
  forall a : list Qc, pairwise_sum add fuel a = fold_right Qcplus 0 a.
Proof.
  induction fuel as [|fuel IH]; intros a; cbn [pairwise_sum];
    destruct (Nat.ltb_spec (length a) 8) as [Hs|Hs].
  - unfold sum_small. rewrite fold_left_total.
    change (@f0 Qc float_exact) with 0. ring.
  - destruct (Nat.leb (length a) 128); now apply sum_block_total.
  - unfold sum_small. rewrite fold_left_total.
    change (@f0 Qc float_exact) with 0. ring.
  - destruct (Nat.leb (length a) 128); [now apply sum_block_total|].
    rewrite !IH, Hadd, <- total_app, firstn_skipn. reflexivity.
Qed.

Lemma np_sum_with_total (a : list Qc) :
  np_sum_with add a = fold_right Qcplus 0 a.
Proof.
  unfold np_sum_with. rewrite pairwise_sum_total, Hadd.
  change (@f0 Qc float_exact) with 0. ring.
Qed.

End Additions.

Lemma exact_np_sum (a : list Qc) : np_sum a = fold_right Qcplus 0 a.
Proof. apply np_sum_with_total. reflexivity. Qed.

Lemma exact_np_sum_float32 (a : list Qc) :
  np_sum_float32 a = fold_right Qcplus 0 a.
Proof. apply np_sum_with_total. reflexivity. Qed.

Lemma exact_np_sum_cons (x : Qc) (xs : list Qc) :
  np_sum (x :: xs) = x + np_sum xs.
Proof. rewrite !exact_np_sum. reflexivity. Qed.

Lemma exact_sum_centred (xs : list Qc) (m d : Qc) :
  np_sum (map (fun a => (a - m) / d) xs)
  = (np_sum xs - f_of_Z (Z.of_nat (length xs)) * m) / d.
Proof.
  induction xs as [|x xs IH].
  - cbn [map length Z.of_nat]. rewrite !exact_np_sum.
    cbn [fold_right f_of_Z float_exact].
    change (Q2Qc (inject_Z 0)) with 0. unfold Qcdiv. ring.
  - cbn [map length]. rewrite !exact_np_sum_cons, IH, exact_of_succ.
    unfold Qcdiv. ring.
Qed.

(** In exact arithmetic, advantages centred by their mean and divided by
    anything have mean zero: the normalization of lines 137-138. *)
Lemma exact_normalized_mean_zero (advantages : list Qc) (d : Qc) :
  advantages <> [] ->
  np_mean (map (fun a => (a -^ np_mean advantages) /^ d) advantages) = 0.
Proof.
  intros Hne. unfold np_mean at 1. cbn [fsub fdiv float_exact].
  rewrite exact_sum_centred, length_map. unfold np_mean.
  destruct advantages as [|x xs]; [congruence|].
  pose proof (@exact_of_nat_nonzero (length xs)) as Hn.
  change (length (x :: xs)) with (S (length xs)).
  cbn [fdiv float_exact].
  set (n := f_of_Z (Z.of_nat (S (length xs)))) in *.
  replace (np_sum (x :: xs) - n * (np_sum (x :: xs) / n)) with (0 : Qc)
    by (field; exact Hn).
  unfold Qcdiv. ring.
Qed.





(** In exact arithmetic [np.clip(a, -1.0, 1.0)] lands in [-1, 1]. *)
Lemma exact_clip_bounds (x : Qc) :
  - (1) <= clip1 neg_one f1 x /\ clip1 neg_one f1 x <= 1.
Proof.
  unfold clip1, neg_one. cbn [fltb fsub f0 f1 float_exact].
  replace (0 - 1) with (- (1)) by ring.
  destruct (x ?= - (1)) eqn:C1.
  - apply Qceq_alt in C1. subst x. vm_compute. split; discriminate.
  - vm_compute. split; discriminate.
  - assert (Hx : - (1) < x) by (apply Qcgt_alt in C1; exact C1).
    destruct (1 ?= x) eqn:C2.
    + split; [apply Qclt_le_weak; exact Hx|].
      apply Qceq_alt in C2. rewrite <- C2. apply Qcle_refl.
    + vm_compute. split; discriminate.
    + split; [apply Qclt_le_weak; exact Hx|].
      apply Qclt_le_weak. apply Qcgt_alt in C2. exact C2.
Qed.

End ExactFacts.

(** * Binary64 *)

Module Binary64Facts.
Import Binary64.

Lemma time_check_binary64 (check : float -> bool) (k : nat) :
  Nat.iter k
    (fun st : float * bool =>
       ((fst st + 0x1.0624dd2f1a9fcp-10)%float, snd st && check (fst st)))
    (0%float, true)
  = (time_feature k, forallb (fun j => check (time_feature j)) (seq 0 k)).
Proof.
  induction k as [|k IH]; [reflexivity|].
  rewrite Nat.iter_succ, IH. cbn [fst snd].
  change (time_feature k + 0x1.0624dd2f1a9fcp-10)%float
    with (time_feature (F := float) (S k)).
  rewrite seq_S, forallb_app. cbn [forallb Nat.add].
  rewrite andb_true_r. reflexivity.
Qed.

Lemma time_check_upto_sound (check : float -> bool) (n : N) :
  time_check_upto check n = true ->
  forall k : nat, (N.of_nat k < n)%N -> check (time_feature k) = true.
Proof.
  unfold time_check_upto.
  rewrite N2Nat.inj_iter, time_check_binary64. cbn [snd].
  rewrite forallb_forall. intros Hcheck k Hk.
  apply Hcheck. apply in_seq. lia.
Qed.

(** In binary64 the accumulated time-step feature is strictly increasing
    over the first million steps. *)
Lemma binary64_time_increasing (k : nat) :
  (N.of_nat k < 1000000)%N ->
  fltb (time_feature (F := float) k) (time_feature (S k)) = true.
Proof.
  apply (time_check_upto_sound time_increases). vm_compute. reflexivity.
Qed.

(** Subtracting 0.0 and multiplying by 1.0 change no binary64 value: the
    operations of primitive floats are those of their specification, where
    the first is the identity by cases and the second rounds a mantissa
    shifted by 52 bits back to itself. *)
Lemma binary64_sub_0 (x : float) : x -^ f0 = x.
Proof.
  cbn [fsub f0 float_binary64].
  apply Prim2SF_inj. rewrite sub_spec.
  change (Prim2SF 0) with (S754_zero false).
  destruct (Prim2SF x) as [[|]|[|]| |s m e]; reflexivity.
Qed.

Lemma shr_fexp_canonical (m : positive) (e : Z) :
  canonical_mantissa prec emax m e = true ->
  shr_fexp prec emax (Zpos m) e loc_Exact
  = ({| shr_m := Zpos m; shr_r := false; shr_s := false |}, e).
Proof.
  unfold canonical_mantissa. intros H. apply Z.eqb_eq in H.
  unfold shr_fexp. cbn [Zdigits2 shr_record_of_loc]. rewrite H, Z.sub_diag.
  reflexivity.
Qed.

Lemma shr_fexp_shifted (m : positive) (e : Z) :
  canonical_mantissa prec emax m e = true ->
  shr_fexp prec emax (Zpos (4503599627370496 * m)) (e + -52) loc_Exact
  = ({| shr_m := Zpos m; shr_r := false; shr_s := false |}, e).
Proof.
  unfold canonical_mantissa. intros H. apply Z.eqb_eq in H.
  unfold shr_fexp. cbn [Zdigits2 shr_record_of_loc].
  assert (Hd : Zpos (digits2_pos (4503599627370496 * m))
               = (Zpos (digits2_pos m) + 52)%Z).
  { cbn [Pos.mul digits2_pos]. rewrite !Pos2Z.inj_succ. lia. }
  rewrite Hd.
  replace (Z.pos (digits2_pos m) + 52 + (e + -52))%Z
    with (Z.pos (digits2_pos m) + e)%Z by lia.
  rewrite H.
  replace (e - (e + -52))%Z with 52%Z by lia.
  unfold shr. apply f_equal2; [|lia].
  cbn [Pos.mul]. vm_compute. reflexivity.
Qed.

Lemma binary64_mul_1 (x : float) : x *^ f1 = x.
Proof.
  cbn [fmul f1 float_binary64].
  apply Prim2SF_inj. rewrite mul_spec.
  pose proof (Prim2SF_valid x) as Hv.
  change (Prim2SF 1) with (S754_finite false 4503599627370496 (-52)).
  destruct (Prim2SF x) as [[|]|[|]| |s m e]; try reflexivity.
  cbn [valid_binary] in Hv. unfold bounded in Hv.
  apply andb_prop in Hv. destruct Hv as [Hc Hb].
  unfold SF64mul, SFmul, binary_round_aux.
  rewrite Pos.mul_comm, (shr_fexp_shifted m e Hc).
  cbn [shr_m loc_of_shr_record round_nearest_even].
  rewrite (shr_fexp_canonical m e Hc). cbn [shr_m].
  rewrite Hb. destruct s; reflexivity.
Qed.

(** The end-to-end scenario of the specification in binary64: the rewards
    [1,1,1,1,1] discounted with 0.99 give, at index 0, the float
    4.90099501. *)
Lemma binary64_discount_sum_scenario :
  nth 0 (SpecModels.calc_discount_sum_rewards
           [1; 1; 1; 1; 1]%float 0x1.fae147ae147aep-1%float) 0%float
  = 0x1.39a9e6f973c9dp+2%float.
Proof. vm_compute. reflexivity. Qed.

End Binary64Facts.

(** * The time-step feature, and runs of the script on the stubs *)

Import Stub Exact Binary64 Scenario.

(** C8, amended.  In a training episode and in an evaluation episode the
    time-step feature appended at the step of index k is the result of k
    successive additions of 1e-3 to 0.0.  In exact arithmetic this is
    k * 1e-3 and increases strictly from each step to the next; in binary64
    it increases strictly over (at least) the first million steps of an
    episode. *)
Theorem time_step_feature_accumulates :
  (forall (F : Type) (FL : Float F) (Env Agent Scaler : Type)
          (GE : GymEnv F Env) (PA : PolicyAgent F Agent) (UT : Utils F Scaler)
          (fuel : nat) (w : @World F Env Agent Scaler),
     (forall t w',
        run_train_episode fuel w = (Ok t, w') ->
        forall k row, nth_error (traj_unscaled t) k = Some row ->
          forall d, last row d = time_feature k)
     /\ (forall v w',
           run_evaluate_episode fuel w = (Ok v, w') ->
           exists scale offset steps,
             episode_spec Evaluation w scale offset steps w'
             /\ forall k s, nth_error steps k = Some s ->
                  s_unscaled s = s_raw s ++ [time_feature k]))
  /\ (forall k : nat,
        time_feature (F := Qc) k = (f_of_Z (Z.of_nat k) * lit_1em3)%Qc
        /\ (time_feature (F := Qc) k < time_feature (S k))%Qc)
  /\ (forall k : nat,
        (N.of_nat k < 1000000)%N ->
        PrimFloat.ltb (time_feature (F := float) k) (time_feature (S k)) = true).
Proof.
  split; [|split].
  - intros F FL Env Agent Scaler GE PA UT fuel w. split.
    + intros t w'. apply run_train_episode_time_feature.
    + intros v w'. apply run_evaluate_episode_time_feature.
  - intros k. split.
    + apply ExactFacts.exact_time_feature.
    + apply ExactFacts.exact_time_increasing.
  - exact Binary64Facts.binary64_time_increasing.
Qed.

(** Counterexample to C8 as stated, in binary64, the arithmetic of the
    Python float: in an episode of twelve steps, the time-step feature
    recorded at the step of index 10 is 0.010000000000000002, and 10 * 1e-3
    is 0.01. *)
Lemma time_step_feature_is_not_a_product :
  exists t w' row,
    run_train_episode 20 (world64 12) = (Ok t, w')
    /\ nth_error (traj_unscaled t) 10 = Some row
    /\ last row f0 = 0x1.47ae147ae147cp-7%float
    /\ (f_of_Z 10 *^ lit_1em3 = 0x1.47ae147ae147bp-7)%float
    /\ last row f0 <> f_of_Z 10 *^ lit_1em3.
Proof.
  eexists _, _, _.
  split; [vm_compute; reflexivity|].
  split; [vm_compute; reflexivity|].
  split; [vm_compute; reflexivity|].
  split; [vm_compute; reflexivity|].
  vm_compute. intros H.
  apply (f_equal Prim2SF) in H. vm_compute in H. discriminate H.
Qed.

(** * The evaluation episode, and the data a batch is learned from *)

(** C4.  [run_evaluate_episode] returns, with enough fuel, exactly when the
    episode unfolds in evaluation mode, and then it returns [np.sum] of
    the rewards of the steps and nothing else.  In words: every step
    normalizes the observation entry by entry as in training, asks
    [policy_predict] (no sampling) and hands its answer, unclipped, to
    [action_mapping], whose result the environment is stepped with; the
    last step is the only one at which the environment reports done; up to
    seven rewards are added from left to right, starting from 0.  And in
    exact arithmetic the value returned is the sum of the rewards. *)
Theorem run_evaluate_episode_spec :
  (forall (F : Type) (FL : Float F) (Env Agent Scaler : Type)
          (GE : GymEnv F Env) (PA : PolicyAgent F Agent) (UT : Utils F Scaler)
          (fuel : nat) (w : @World F Env Agent Scaler) v w',
     (run_evaluate_episode fuel w = (Ok v, w') <->
      exists scale offset steps,
        episode_spec Evaluation w scale offset steps w'
        /\ length steps <= fuel
        /\ v = np_sum (map (@s_reward F) steps))
     /\ (forall scale offset steps,
           episode_spec Evaluation w scale offset steps w' ->
           Forall (step_in_words Evaluation scale offset) steps
           /\ (exists s, last steps s = s /\ In s steps /\ s_done s = true)
           /\ Forall (fun s => s_done s = false) (removelast steps)
           /\ (length steps < 8 ->
               np_sum (map (@s_reward F) steps)
               = f0 +^ fold_left fadd (map (@s_reward F) steps) f0)))
  /\ (forall (Env Agent Scaler : Type)
             (GE : GymEnv Qc Env) (PA : PolicyAgent Qc Agent)
             (UT : Utils Qc Scaler)
             (fuel : nat) (w : @World Qc Env Agent Scaler) v w',
        run_evaluate_episode fuel w = (Ok v, w') ->
        exists scale offset steps,
          episode_spec Evaluation w scale offset steps w'
          /\ v = fold_right Qcplus 0%Qc (map (@s_reward Qc) steps)).
Proof.
  split.
  - intros F FL Env Agent Scaler GE PA UT fuel w v w'. split.
    + split.
      * apply run_evaluate_episode_ok.
      * intros (scale & offset & steps & Hspec & Hlen & ->).
        eapply run_evaluate_episode_complete; eassumption.
    + intros scale offset steps Hspec.
      destruct (@episode_spec_in_words _ _ _ _ _ _ _ _ Evaluation
                  w scale offset steps w') as (Hwords & Hlast & Hothers);
        [discriminate|exact Hspec|].
      repeat (split; [assumption|]).
      intros Hlen. apply np_sum_with_small. now rewrite length_map.
  - intros Env Agent Scaler GE PA UT fuel w v w' Hrun.
    apply run_evaluate_episode_ok in Hrun.
    destruct Hrun as (scale & offset & steps & Hspec & _ & ->).
    exists scale, offset, steps. split; [exact Hspec|].
    apply ExactFacts.exact_np_sum.
Qed.


(** [np.sum] of ten times 0.1 in binary64: 1.0, where adding from left to
    right gives 0.99999999999999989; and of three times 0.1 in float32,
    where every addition is rounded. *)
Example np_sum_is_pairwise :
  np_sum (repeat 0x1.999999999999ap-4%float 10) = 1%float
  /\ fold_left PrimFloat.add (repeat 0x1.999999999999ap-4%float 10) 0%float
     = 0x1.fffffffffffffp-1%float
  /\ np_sum_float32 (map round_float32 (repeat 0x1.999999999999ap-4%float 3))
     = 0x1.333334p-2%float
  /\ fold_left PrimFloat.add (map round_float32 (repeat 0x1.999999999999ap-4%float 3)) 0%float
     = 0x1.3333338p-2%float.
Proof. repeat split; vm_compute; reflexivity. Qed.

(** The rewards of a batch, scaled in float32: 1 becomes the float32
    nearest to 1 - 0.995, where a multiplication in binary64 would give
    0.0050000000000000044. *)
Example scale_rewards_in_float32 :
  scale_rewards args64 [1%float] = [0x1.47ae14p-8%float]
  /\ (1 * (1 - 0x1.fd70a3d70a3d7p-1))%float = 0x1.47ae147ae148p-8%float.
Proof. split; vm_compute; reflexivity. Qed.

(** ** Runs that meet the hypotheses of the theorems above *)

Import Seen.

(** A batch of two episodes of three steps: two reads of the scaler, then
    the update. *)
Lemma collect_trajectories_updates_scaler_last_run :
  exists obs actions rewards w' x,
    collect_trajectories 10 2 (world64 3) = (Ok (obs, actions, rewards), w')
    /\ scaler_calls (w_trace w') = [EvScalerGet; EvScalerGet; EvScalerUpdate x].
Proof.
  destruct (collect_trajectories 10 2 (world64 3))
    as [[[[obs actions] rewards]| |] w'] eqn:Hrun.
  - destruct (collect_trajectories_updates_scaler_last _ _ _ Hrun)
      as (ts & wn & evs & _ & _ & _ & _ & Htr & _ & Hw' & Hcalls & _).
    exists obs, actions, rewards, w', (concat (map (@traj_unscaled float) ts)).
    split; [reflexivity|].
    rewrite Hw'. cbn [updated w_trace]. rewrite Htr. exact Hcalls.
  - vm_compute in Hrun. discriminate Hrun.
  - vm_compute in Hrun. discriminate Hrun.
Defined.

(** A training episode in binary64, where subtracting 0.0 and multiplying
    by 1.0 change nothing, with a scaler that holds the scales 2, 4, 2 and
    the offsets 1, 2, 3: the pair used ends with 1 and 0, the first two
    entries of every observation are centred and scaled, and the third is
    the time-step feature, cast to float32. *)
Lemma time_step_feature_not_scaled_run :
  exists t w' scale offset steps,
    scaler_get (w_scaler (Seen.seen_world (F := float) 3))
      = ([2; 4; 2]%float, [1; 2; 3]%float)
    /\ run_train_episode 10 (Seen.seen_world (F := float) 3) = (Ok t, w')
    /\ scale = [2; 4; 1]%float
    /\ offset = [1; 2; 0]%float
    /\ episode_spec Training (Seen.seen_world 3) scale offset steps w'
    /\ time_step_untouched scale offset steps
    /\ traj_unscaled t
       = [[0; 1; 0]; [1; -2; 0x1.0624dd2f1a9fcp-10]; [2; 0; 0x1.0624dd2f1a9fcp-9]]%float
    /\ traj_obs t
       = [[-2; -4; 0]; [0; -16; 0x1.0624dep-10]; [2; -8; 0x1.0624dep-9]]%float.
Proof.
  destruct (run_train_episode 10 (Seen.seen_world (F := float) 3))
    as [[t| |] w'] eqn:Hrun.
  - destruct (proj1 (time_step_feature_not_scaled
                       Binary64Facts.binary64_sub_0
                       Binary64Facts.binary64_mul_1
                       10 (Seen.seen_world 3)) t w' Hrun)
      as (scale & offset & steps & Hspec & _ & Huntouched).
    pose proof Hspec as (Hsc & Hoff & _).
    vm_compute in Hsc, Hoff. injection Hsc as Hsc. injection Hoff as Hoff.
    pose proof Hrun as Ht. vm_compute in Ht. injection Ht as Ht _.
    exists t, w', scale, offset, steps.
    split; [reflexivity|]. split; [reflexivity|].
    split; [symmetry; exact Hsc|]. split; [symmetry; exact Hoff|].
    split; [exact Hspec|]. split; [exact Huntouched|].
    rewrite <- Ht. split; vm_compute; reflexivity.
  - vm_compute in Hrun. discriminate Hrun.
  - vm_compute in Hrun. discriminate Hrun.
Defined.

(** The same in exact arithmetic, in evaluation. *)
Lemma time_step_untouched_exact_run :
  exists v w' scale offset steps,
    scaler_get (w_scaler (Seen.seen_world (F := Qc) 3))
      = ([f1 +^ f1; (f1 +^ f1) +^ (f1 +^ f1); f1 +^ f1],
         [f1; f1 +^ f1; (f1 +^ f1) +^ f1])
    /\ run_evaluate_episode 10 (Seen.seen_world (F := Qc) 3) = (Ok v, w')
    /\ (forall d, last scale d = f1)
    /\ (forall d, last offset d = f0)
    /\ episode_spec Evaluation (Seen.seen_world 3) scale offset steps w'
    /\ time_step_untouched scale offset steps.
Proof.
  destruct (run_evaluate_episode 10 (Seen.seen_world (F := Qc) 3))
    as [[v| |] w'] eqn:Hrun.
  - destruct (run_evaluate_episode_ok _ _ Hrun)
      as (scale & offset & steps & Hspec & _).
    pose proof (episode_spec_time_step_untouched
                  ExactFacts.exact_sub_0 ExactFacts.exact_mul_1 Hspec)
      as Huntouched.
    exists v, w', scale, offset, steps.
    split; [reflexivity|]. split; [reflexivity|].
    split; [apply Huntouched|]. split; [apply Huntouched|].
    split; assumption.
  - vm_compute in Hrun. discriminate Hrun.
  - vm_compute in Hrun. discriminate Hrun.
Defined.

(** Seven episodes in batches of two: four batches, eight episodes. *)
Lemma main_loop_terminates_run :
  exists w', main_loop 4 10 args64 (world64 3) = (Ok 8%Z, w').
Proof.
  assert (Hepb : (1 <= episodes_per_batch args64)%Z) by (vm_compute; discriminate).
  assert (Hfuel : batches_needed args64 <= 4) by (vm_compute; apply le_n).
  destruct (main_loop_terminates 10 args64 (world64 3) Hepb Hfuel)
    as (_ & _ & _ & Hcount & _).
  destruct (main_loop 4 10 args64 (world64 3)) as [[ep| |] w'] eqn:Hrun.
  - exists w'. rewrite (Hcount ep w' eq_refl). reflexivity.
  - vm_compute in Hrun. discriminate Hrun.
  - vm_compute in Hrun. discriminate Hrun.
Defined.


(** A training episode in binary64, where 1 is not below -1, with the
    scaler that holds the scales 2, 4, 2 and the offsets 1, 2, 3. *)
Lemma run_train_episode_spec_run :
  exists t w' scale offset steps,
    fltb (F := float) f1 (f0 -^ f1) = false
    /\ run_train_episode 10 (seen_world (F := float) 3) = (Ok t, w')
    /\ episode_spec Training (seen_world 3) scale offset steps w'
    /\ Forall (step_in_words Training scale offset) steps
    /\ t = (map (@s_normalized float) steps, map (@s_action float) steps,
            map f32 (map (@s_reward float) steps),
            map (@s_unscaled float) steps)
    /\ traj_actions t = [[-2]; [0]; [2]]%float
    /\ traj_rewards t = [1; 1; 1]%float.
Proof.
  assert (Hord : fltb (F := float) f1 (f0 -^ f1) = false)
    by (vm_compute; reflexivity).
  destruct (run_train_episode 10 (seen_world (F := float) 3))
    as [[t| |] w'] eqn:Hrun.
  - destruct (run_train_episode_spec 10 (seen_world (F := float) 3) t w')
      as [Hiff Hwords].
    destruct (proj1 Hiff Hrun)
      as (scale & offset & steps & Hspec & _ & _ & Ht).
    destruct (Hwords Hord scale offset steps Hspec)
      as (Hsteps & _ & _ & Htraj).
    exists t, w', scale, offset, steps.
    split; [exact Hord|]. split; [reflexivity|]. split; [exact Hspec|].
    split; [exact Hsteps|]. split; [rewrite Ht; exact Htraj|].
    pose proof Hrun as Hc. vm_compute in Hc. injection Hc as Hc _.
    rewrite <- Hc. split; reflexivity.
  - vm_compute in Hrun. discriminate Hrun.
  - vm_compute in Hrun. discriminate Hrun.
Defined.

(** An evaluation episode of five steps with the reward 1: the sum, from
    left to right, is 5. *)
Lemma run_evaluate_episode_spec_run :
  exists v w' scale offset steps,
    run_evaluate_episode 10 (world64 5) = (Ok v, w')
    /\ episode_spec Evaluation (world64 5) scale offset steps w'
    /\ Forall (step_in_words Evaluation scale offset) steps
    /\ v = (0 + fold_left PrimFloat.add (map (@s_reward float) steps) 0)%float
    /\ v = 5%float.
Proof.
  destruct (run_evaluate_episode 10 (world64 5)) as [[v| |] w'] eqn:Hrun.
  - destruct (proj1 run_evaluate_episode_spec _ _ _ _ _ _ _ _ 10 (world64 5)
                v w') as [Hiff Hwords].
    destruct (proj1 Hiff Hrun) as (scale & offset & steps & Hspec & Hlen & Hv).
    destruct (Hwords scale offset steps Hspec) as (Hsteps & _ & _ & Hsmall).
    exists v, w', scale, offset, steps.
    split; [reflexivity|]. split; [exact Hspec|]. split; [exact Hsteps|].
    pose proof Hrun as Hc. vm_compute in Hc. injection Hc as Hc _.
    split; [|symmetry; exact Hc].
    rewrite Hv. apply Hsmall.
    destruct Hspec as (_ & _ & _ & _ & Htr).
    apply (f_equal (@length _)) in Htr.
    rewrite !length_app in Htr. cbn [length] in Htr.
    assert (Hls : length (flat_map (step_events Evaluation) steps)
                  = 2 * length steps).
    { clear. induction steps as [|s steps IH]; [reflexivity|].
      cbn [flat_map step_events length app]. rewrite IH. lia. }
    rewrite Hls in Htr.
    pose proof Hrun as Hw. vm_compute in Hw. injection Hw as _ Hw.
    rewrite <- Hw in Htr. cbn [w_trace length] in Htr. lia.
  - vm_compute in Hrun. discriminate Hrun.
  - vm_compute in Hrun. discriminate Hrun.
Defined.

(** An evaluation episode on the stubs, whose agent predicts 2 with the
    action bounds [-2, 2]: the environment is stepped with 4, the linear
    image of 2, where the clipped prediction would have given 2. *)
Lemma evaluation_rescales_prediction_as_is :
  exists v w',
    run_evaluate_episode 10 (world64 3) = (Ok v, w')
    /\ In (EvPolicyPredict [0; 1; 0]%float) (w_trace w')
    /\ In (EvStep [4]%float) (w_trace w')
    /\ policy_predict (Agent := nat) 0 [0; 1; 0]%float = ([2]%float, 1)
    /\ action_mapping (Scaler := StubScaler) (np_clip [2]%float neg_one f1)
         (-2)%float 2%float = Ok [2]%float.
Proof.
  eexists _, _.
  split; [vm_compute; reflexivity|].
  split; [vm_compute; tauto|].
  split; [vm_compute; tauto|].
  split; vm_compute; reflexivity.
Qed.

(** A training episode of two steps on the stubs, in binary64: the second
    normalized observation carries the float32 rounding of the time-step
    feature 0.001, the unscaled one the feature itself. *)
Example run_train_episode_on_stubs :
  run_train_episode 10 (world64 2)
  = (Ok ([[0; 1; 0]; [1; 0; 0x1.0624dep-10]]%float,
         [[0]; [2]]%float,
         [1; 1]%float,
         [[0; 1; 0]; [1; 0; 0x1.0624dd2f1a9fcp-10]]%float),
     {| w_env := {| horizon := 2; clock := 2 |};
        w_agent := 2;
        w_scaler := {| cnt := 0; sums := [0; 0; 0]%float |};
        w_trace :=
          [EvReset; EvScalerGet;
           EvPolicySample [0; 1; 0]%float; EvStep [0]%float;
           EvPolicySample [1; 0; 0x1.0624dep-10]%float; EvStep [2]%float] |}).
Proof. vm_compute. reflexivity. Qed.

(** The evaluation episode of the scenario of the specification: five
    steps with the reward 1 each, and the total 5. *)
Example run_evaluate_episode_on_stubs :
  fst (run_evaluate_episode 10 (world64 5)) = Ok 5%float.
Proof. vm_compute. reflexivity. Qed.

(** A batch of no episode raises: there is nothing to concatenate, and the
    scaler is not updated. *)
Example collect_trajectories_no_episode :
  collect_trajectories 10 0 (world64 3) = (Raise ValueError, world64 3).
Proof. vm_compute. reflexivity. Qed.

(** With less fuel than the episode has steps, the episode does not
    return. *)
Example run_train_episode_out_of_fuel :
  fst (run_train_episode 10 (world64 11)) = Diverge.
Proof. vm_compute. reflexivity. Qed.

(** * Further properties of the script *)

Section CallFacts.
Context {F : Type} {FL : Float F} {FS : FloatSqrt F} {SP : ScalarPromotion}.
Context {Env Agent Scaler : Type}.
Context {GE : GymEnv F Env} {PA : PolicyAgent F Agent} {UT : Utils F Scaler}.

Local Abbreviation World := (@World F Env Agent Scaler).
Local Abbreviation Event := (@Event F).
Local Abbreviation StepRecord := (@StepRecord F).
Local Abbreviation M := (@M F Env Agent Scaler).
Local Abbreviation Trajectory := (@Trajectory F).

(** ** Calls of a given kind *)

Lemma emits_only_ret (P : Event -> bool) (A : Type) (a : A) :
  emits_only P (ret a : M A).
Proof. intros w. exists []. simpl. now rewrite app_nil_r. Qed.

Lemma emits_only_lift (P : Event -> bool) (A : Type) (o : Outcome A) :
  emits_only P (lift o : M A).
Proof. intros w. exists []. simpl. now rewrite app_nil_r. Qed.

Lemma emits_only_bind (P : Event -> bool) (A B : Type) (m : M A) (k : A -> M B) :
  emits_only P m -> (forall a, emits_only P (k a)) -> emits_only P (bind m k).
Proof.
  intros Hm Hk w. unfold bind.
  destruct (Hm w) as (evs1 & H1 & S1).
  destruct (m w) as [[a| |] w1]; simpl in H1.
  - destruct (Hk a w1) as (evs2 & H2 & S2).
    exists (evs1 ++ evs2). split.
    + rewrite H2, H1, app_assoc. reflexivity.
    + rewrite forallb_app, S1, S2. reflexivity.
  - exists evs1. simpl. auto.
  - exists evs1. simpl. auto.
Qed.


Lemma emits_only_call_agent (P : Event -> bool) (A : Type)
    (method : Agent -> A * Agent) (ev : Event) :
  P ev = true -> emits_only P (call_agent method ev : M A).
Proof.
  intros Hev w. unfold call_agent. destruct (method (w_agent w)) as [r a].
  exists [ev]. simpl. now rewrite Hev.
Qed.

Lemma emits_only_call_env_step (P : Event -> bool) (action : list F) :
  P (EvStep action) = true ->
  emits_only P (call_env_step action : M (list F * F * bool)).
Proof.
  intros Hev w. unfold call_env_step.
  destruct (env_step (w_env w) action) as [r e].
  exists [EvStep action]. simpl. now rewrite Hev.
Qed.

Lemma emits_only_call_env_reset (P : Event -> bool) :
  P EvReset = true -> emits_only P (call_env_reset : M (list F)).
Proof.
  intros Hev w. unfold call_env_reset.
  destruct (env_reset (w_env w)) as [obs e].
  exists [EvReset]. simpl. now rewrite Hev.
Qed.

Lemma emits_only_env_bounds (P : Event -> bool) :
  emits_only P (env_bounds : M (F * F)).
Proof. intros w. exists []. simpl. now rewrite app_nil_r. Qed.

Lemma emits_only_call_scaler_get (P : Event -> bool) :
  P EvScalerGet = true -> emits_only P (call_scaler_get : M (list F * list F)).
Proof. intros Hev w. exists [EvScalerGet]. simpl. now rewrite Hev. Qed.

Lemma emits_only_call_scaler_update (P : Event -> bool) (x : list (list F)) :
  P (EvScalerUpdate x) = true -> emits_only P (call_scaler_update x : M unit).
Proof. intros Hev w. exists [EvScalerUpdate x]. simpl. now rewrite Hev. Qed.

Lemma emits_only_store_scaler_arrays (P : Event -> bool) (scale offset : list F) :
  emits_only P (store_scaler_arrays scale offset : M unit).
Proof. intros w. exists []. simpl. now rewrite app_nil_r. Qed.

Lemma emits_only_log_info (P : Event -> bool) (ev : Event) :
  P ev = true -> emits_only P (log_info ev : M unit).
Proof. intros Hev w. exists [ev]. simpl. now rewrite Hev. Qed.

Lemma emits_only_while (P : Event -> bool) (L : Type)
    (cond : L -> bool) (body : L -> M L) :
  (forall l, emits_only P (body l)) ->
  forall fuel l, emits_only P (while cond body fuel l).
Proof.
  intros Hb. induction fuel as [|fuel IH]; intros l; simpl;
    destruct (cond l); try apply emits_only_ret; try apply emits_only_lift.
  apply emits_only_bind; [apply Hb | apply IH].
Qed.

Lemma emits_only_loop_until_break (P : Event -> bool) (L : Type)
    (body : L -> M (L * bool)) :
  (forall l, emits_only P (body l)) ->
  forall fuel l, emits_only P (loop_until_break body fuel l).
Proof.
  intros Hb. induction fuel as [|fuel IH]; intros l; simpl.
  - apply emits_only_lift.
  - apply emits_only_bind; [apply Hb|].
    intros [l' [|]]; [apply emits_only_ret | apply IH].
Qed.

Lemma emits_only_for_range (P : Event -> bool) (L : Type) (body : L -> M L) :
  (forall l, emits_only P (body l)) ->
  forall n l, emits_only P (for_range body n l).
Proof.
  intros Hb. induction n as [|n IH]; intros l; simpl.
  - apply emits_only_ret.
  - apply emits_only_bind; [apply Hb | apply IH].
Qed.

(** Goes through a computation of the script, call by call; the calls
    must satisfy the predicate by computation. *)
Ltac emits_steps :=
  repeat (first [ apply emits_only_bind | apply emits_only_lift
                | apply emits_only_ret
                | apply emits_only_call_agent; reflexivity
                | apply emits_only_call_env_step; reflexivity
                | apply emits_only_call_env_reset; reflexivity
                | apply emits_only_call_scaler_get; reflexivity
                | apply emits_only_call_scaler_update; reflexivity
                | apply emits_only_store_scaler_arrays
                | apply emits_only_log_info; reflexivity
                | apply emits_only_env_bounds
                | intros [[[? ?] ?] ?] | intros [[? ?] ?] | intros [? ?]
                | intros ? ]).

Lemma emits_only_get_scale_offset (P : Event -> bool) :
  P EvScalerGet = true ->
  emits_only P (get_scale_offset : M (list F * list F)).
Proof.
  intros Hev. unfold get_scale_offset.
  apply emits_only_bind; [now apply emits_only_call_scaler_get|].
  emits_steps.
Qed.

Lemma run_train_episode_emits :
  forall fuel, emits_only is_training_call (run_train_episode fuel : M _).
Proof.
  intros fuel. unfold run_train_episode.
  apply emits_only_bind; [emits_steps|]. intros obs.
  apply emits_only_bind; [now apply emits_only_get_scale_offset|].
  intros [scale offset].
  apply emits_only_bind.
  - apply emits_only_while. intros l. unfold train_body. emits_steps.
  - emits_steps.
Qed.

Lemma run_evaluate_episode_emits :
  forall fuel, emits_only is_evaluation_call (run_evaluate_episode fuel : M _).
Proof.
  intros fuel. unfold run_evaluate_episode.
  apply emits_only_bind; [emits_steps|]. intros obs.
  apply emits_only_bind; [now apply emits_only_get_scale_offset|].
  intros [scale offset].
  apply emits_only_bind.
  - apply emits_only_loop_until_break. intros l. unfold evaluate_body.
    emits_steps.
  - emits_steps.
Qed.

(** A computation that makes no call at all. *)
Lemma emits_nothing (A : Type) (m : M A) (w : World) :
  emits_only (fun _ => false) m -> w_trace (snd (m w)) = w_trace w.
Proof.
  intros Hm. destruct (Hm w) as (evs & Htr & Hnone).
  destruct evs as [|ev evs]; [|discriminate].
  now rewrite app_nil_r in Htr.
Qed.

Lemma np_concatenate_ok (arrays : list (list (list F))) (rows : list (list F)) :
  np_concatenate arrays = Ok rows ->
  arrays <> [] /\ rows = concat arrays /\ same_width rows = true.
Proof.
  unfold np_concatenate. destruct arrays as [|a arrays]; [discriminate|].
  destruct (same_width (concat (a :: arrays))) eqn:Hw; [|discriminate].
  intros [= <-]. repeat split; [discriminate | assumption].
Qed.

(** ** The calls of the episode runners *)



Lemma collect_loop_emits (fuel n : nat) l :
  emits_only is_training_call (for_range (collect_body fuel) n l : M _).
Proof.
  apply emits_only_for_range. intros l'. unfold collect_body.
  apply emits_only_bind; [apply run_train_episode_emits|]. emits_steps.
Qed.

(** The calls of a batch, whatever its outcome: those of its training
    episodes, then at most the update of the scaler, and nothing after. *)
Lemma collect_trajectories_trace (fuel : nat) (episodes : Z) (w : World) :
  exists evs,
    forallb is_training_call evs = true
    /\ match collect_trajectories fuel episodes w with
       | (Ok _, w') =>
           exists x, w_trace w' = w_trace w ++ evs ++ [EvScalerUpdate x]
       | (_, w') =>
           w_trace w' = w_trace w ++ evs
           \/ exists x, w_trace w' = w_trace w ++ evs ++ [EvScalerUpdate x]
       end.
Proof.
  unfold collect_trajectories. unfold bind at 1.
  match goal with |- context [for_range ?b ?n ?l0 w] =>
    destruct (collect_loop_emits fuel n l0 w) as (evs & Htr & Hevs);
    destruct (for_range b n l0 w) as [[l| |] w1]
  end; cbn [snd] in Htr; exists evs; (split; [assumption|]); auto.
  unfold bind at 1. unfold lift at 1.
  destruct (np_concatenate (all_unscaled_obs l)) as [x| |]; auto.
  unfold bind at 1. unfold call_scaler_update at 1.
  match goal with |- context [bind ?m ?k ?w2] =>
    pose proof (@emits_nothing _ (bind m k) w2) as Hrest;
    destruct (bind m k w2) as [[r| |] w'] eqn:E
  end;
    (cbn [snd] in Hrest; rewrite Hrest; [|emits_steps]);
    cbn [w_trace emit]; rewrite Htr, <- app_assoc; eauto.
Qed.

(** X3.  Whatever the outcome of [collect_trajectories], the scaler is
    updated at most once, after the last call of the last episode, and no
    call follows the update; when the batch completes the update has been
    made. *)
Theorem collect_trajectories_update_is_last (fuel : nat) (episodes : Z)
    (w : World) :
  exists evs,
    forallb is_training_call evs = true
    /\ (w_trace (snd (collect_trajectories fuel episodes w)) = w_trace w ++ evs
        \/ exists x,
             w_trace (snd (collect_trajectories fuel episodes w))
             = w_trace w ++ evs ++ [EvScalerUpdate x])
    /\ (is_ok (fst (collect_trajectories fuel episodes w)) = true ->
        exists x,
          w_trace (snd (collect_trajectories fuel episodes w))
          = w_trace w ++ evs ++ [EvScalerUpdate x]).
Proof.
  destruct (collect_trajectories_trace fuel episodes w) as (evs & Hevs & Htr).
  exists evs. split; [assumption|].
  destruct (collect_trajectories fuel episodes w) as [[r| |] w'];
    cbn [fst snd is_ok]; (split; [|try discriminate]); auto.
Qed.

(** ** Shapes *)

Lemma env_steps_of_steps mode (steps : list StepRecord) :
  length (filter is_env_step (flat_map (step_events mode) steps))
  = length steps.
Proof.
  induction steps as [|s steps IH]; [reflexivity|].
  cbn [flat_map]. rewrite filter_app, length_app, IH.
  destruct mode; reflexivity.
Qed.

Lemma trajectory_of_lengths (steps : list StepRecord) :
  length (traj_obs (trajectory_of steps)) = length steps
  /\ length (traj_actions (trajectory_of steps)) = length steps
  /\ length (traj_rewards (trajectory_of steps)) = length steps
  /\ length (traj_unscaled (trajectory_of steps)) = length steps.
Proof.
  unfold trajectory_of, traj_obs, traj_actions, traj_rewards, traj_unscaled,
    astype_float32.
  cbn [fst snd]. rewrite !length_map. auto.
Qed.

(** X4.  The four arrays a training episode returns have one row per
    environment step: the same number of rows, at least one (the loop body
    runs before the first test of [done] can stop it), and each of the three
    two-dimensional arrays is rectangular. *)
Theorem run_train_episode_shapes (fuel : nat) (w : World) t w' :
  run_train_episode fuel w = (Ok t, w') ->
  length (traj_actions t) = length (traj_obs t)
  /\ length (traj_rewards t) = length (traj_obs t)
  /\ length (traj_unscaled t) = length (traj_obs t)
  /\ 1 <= length (traj_obs t) <= fuel
  /\ same_width (traj_obs t) = true
  /\ same_width (traj_actions t) = true
  /\ same_width (traj_unscaled t) = true
  /\ exists evs,
       w_trace w' = w_trace w ++ evs
       /\ length (filter is_env_step evs) = length (traj_obs t).
Proof.
  intros Hrun. apply run_train_episode_ok in Hrun.
  destruct Hrun as (scale & offset & steps & Hspec & Hlen & Hw & ->).
  destruct (trajectory_of_lengths steps) as (Ho & Ha & Hr & Hu).
  destruct Hw as (Wo & Wa & Wu).
  destruct Hspec as (_ & _ & Hsteps & _ & Htr).
  apply episode_steps_nonempty in Hsteps.
  rewrite Ho, Ha, Hr, Hu.
  split; [reflexivity|]. split; [reflexivity|]. split; [reflexivity|].
  split; [destruct steps; [congruence | simpl in *; lia]|].
  split; [exact Wo|]. split; [exact Wa|]. split; [exact Wu|].
  eexists. split; [exact Htr|].
  rewrite filter_app. cbn [filter is_env_step app]. apply env_steps_of_steps.
Qed.

Lemma length_concat_map (A B : Type) (f : A -> list B) (l : list A) :
  length (concat (map f l)) = list_sum (map (fun a => length (f a)) l).
Proof.
  induction l as [|a l IH]; [reflexivity|].
  cbn [map concat list_sum]. now rewrite length_app, IH.
Qed.

(** The episodes of a batch: each has as many rows in every array as it
    made environment steps, and at least one. *)
Lemma episodes_run_shapes (fuel n : nat) (w : World) ts w' :
  episodes_run fuel n w ts w' ->
  length ts = n
  /\ Forall (fun t : Trajectory =>
               length (traj_actions t) = length (traj_obs t)
               /\ length (traj_rewards t) = length (traj_obs t)
               /\ length (traj_unscaled t) = length (traj_obs t)
               /\ 1 <= length (traj_obs t)) ts
  /\ exists evs,
       w_trace w' = w_trace w ++ evs
       /\ forallb is_training_call evs = true
       /\ length (filter is_env_step evs)
          = list_sum (map (fun t => length (traj_obs t)) ts)
       /\ length (filter is_scaler_call evs) = n.
Proof.
  induction 1 as [w|n w t w1 ts w' Hrun Hrest (IHlen & IHall & evs & IHtr & IHc & IHs & IHg)].
  - split; [reflexivity|]. split; [constructor|].
    exists []. rewrite app_nil_r. auto.
  - apply run_train_episode_ok in Hrun.
    destruct Hrun as (scale & offset & steps & Hspec & _ & _ & ->).
    destruct (trajectory_of_lengths steps) as (Ho & Ha & Hr & Hu).
    destruct Hspec as (_ & _ & Hsteps & _ & Htr).
    apply episode_steps_nonempty in Hsteps.
    split; [simpl; now rewrite IHlen|]. split.
    + constructor; [|assumption]. rewrite Ho, Ha, Hr, Hu.
      repeat split. destruct steps; [congruence | simpl; lia].
    + exists (([EvReset; EvScalerGet] ++ flat_map (step_events Training) steps)
              ++ evs).
      split; [rewrite IHtr, Htr, <- !app_assoc; reflexivity|].
      split.
      { rewrite forallb_app, IHc, andb_true_r. cbn [app forallb is_training_call].
        clear. induction steps as [|s steps IH]; [reflexivity|].
        cbn [flat_map step_events app forallb is_training_call]. exact IH. }
      split.
      { rewrite !filter_app, !length_app, IHs, env_steps_of_steps.
        cbn [filter is_env_step length map]. rewrite Ho.
        unfold list_sum. cbn [fold_right]. lia. }
      { rewrite !filter_app, !length_app, IHg.
        change (filter is_scaler_call
                  (flat_map (step_events Training) steps))
          with (scaler_calls (flat_map (step_events Training) steps)).
        rewrite scaler_calls_steps. reflexivity. }
Qed.

Lemma list_sum_eq (A : Type) (f g : A -> nat) (l : list A) :
  Forall (fun a => f a = g a) l ->
  list_sum (map f l) = list_sum (map g l).
Proof.
  induction 1 as [|a l Ha Hl IH]; [reflexivity|].
  cbn [map]. unfold list_sum in *. cbn [fold_right]. now rewrite Ha, IH.
Qed.

Lemma list_sum_at_least (A : Type) (f : A -> nat) (l : list A) :
  Forall (fun a => 1 <= f a) l -> length l <= list_sum (map f l).
Proof.
  induction 1 as [|a l Ha Hl IH]; [reflexivity|].
  cbn [map length]. unfold list_sum in *. cbn [fold_right]. lia.
Qed.

(** A batch that completes, with the shapes [np.concatenate] accepted. *)
Lemma collect_trajectories_run (fuel : nat) (episodes : Z) (w : World)
    obs actions rewards w' :
  collect_trajectories fuel episodes w = (Ok (obs, actions, rewards), w') ->
  exists ts wn,
    episodes_run fuel (Z.to_nat episodes) w ts wn
    /\ w' = updated wn (concat (map (@traj_unscaled F) ts))
    /\ obs = concat (map (@traj_obs F) ts)
    /\ actions = concat (map (@traj_actions F) ts)
    /\ rewards = concat (map (@traj_rewards F) ts)
    /\ ts <> []
    /\ same_width (concat (map (@traj_unscaled F) ts)) = true
    /\ same_width obs = true
    /\ same_width actions = true.
Proof.
  unfold collect_trajectories. unfold bind at 1.
  match goal with |- context [for_range ?b ?n ?l0 w] =>
    destruct (for_range b n l0 w) as [[l| |] wn] eqn:Hloop
  end; try discriminate.
  apply collect_loop_ok in Hloop.
  destruct Hloop as (ts & Hts & Ho & Ha & Hr & Hu). cbn in Ho, Ha, Hr, Hu.
  unfold bind, lift, ret, call_scaler_update, emit. rewrite Ho, Ha, Hr, Hu.
  destruct (np_concatenate (map (@traj_unscaled F) ts)) as [x| |] eqn:Ex;
    try discriminate.
  cbn [w_env w_agent w_scaler w_trace].
  destruct (np_concatenate (map (@traj_obs F) ts)) as [o| |] eqn:Eo;
    try discriminate.
  destruct (np_concatenate (map (@traj_actions F) ts)) as [a| |] eqn:Ea;
    try discriminate.
  destruct (np_concatenate1 (map (@traj_rewards F) ts)) as [r| |] eqn:Er;
    try discriminate.
  apply np_concatenate_ok in Ex, Eo, Ea.
  destruct Ex as (Hne & -> & Wx), Eo as (_ & -> & Wo), Ea as (_ & -> & Wa).
  unfold np_concatenate1 in Er.
  destruct (map (@traj_rewards F) ts) as [|r0 rs] eqn:Emap; [discriminate|].
  injection Er as <-.
  intros [= <- <- <- <-].
  exists ts, wn. rewrite Emap.
  repeat split; try assumption.
  intros ->. apply Hne. reflexivity.
Qed.

(** X5.  The three arrays a batch returns have the same number of rows,
    one per environment step of the batch and at least one per episode; the
    matrix given to [scaler.update] has that number of rows too; and all of
    them are rectangular.  A batch that completes has at least one
    episode. *)
Theorem collect_trajectories_shapes (fuel : nat) (episodes : Z) (w : World)
    obs actions rewards w' :
  collect_trajectories fuel episodes w = (Ok (obs, actions, rewards), w') ->
  length actions = length obs
  /\ length rewards = length obs
  /\ (1 <= episodes)%Z
  /\ Z.to_nat episodes <= length obs
  /\ same_width obs = true
  /\ same_width actions = true
  /\ exists evs x,
       w_trace w' = w_trace w ++ evs ++ [EvScalerUpdate x]
       /\ length (filter is_env_step evs) = length obs
       /\ length x = length obs
       /\ same_width x = true.
Proof.
  intros Hrun. apply collect_trajectories_run in Hrun.
  destruct Hrun as (ts & wn & Hts & -> & -> & -> & -> & Hne & Wx & Wo & Wa).
  apply episodes_run_shapes in Hts.
  destruct Hts as (Hlen & Hall & evs & Htr & _ & Hsteps & _).
  rewrite !length_concat_map.
  assert (Ha : list_sum (map (fun t : Trajectory => length (traj_actions t)) ts)
               = list_sum (map (fun t : Trajectory => length (traj_obs t)) ts)).
  { apply list_sum_eq. eapply Forall_impl; [|exact Hall]. now intros t (H1 & _). }
  assert (Hr : list_sum (map (fun t : Trajectory => length (traj_rewards t)) ts)
               = list_sum (map (fun t : Trajectory => length (traj_obs t)) ts)).
  { apply list_sum_eq. eapply Forall_impl; [|exact Hall].
    now intros t (_ & H2 & _). }
  assert (Hu : list_sum (map (fun t : Trajectory => length (traj_unscaled t)) ts)
               = list_sum (map (fun t : Trajectory => length (traj_obs t)) ts)).
  { apply list_sum_eq. eapply Forall_impl; [|exact Hall].
    now intros t (_ & _ & H3 & _). }
  assert (Hge : length ts
                <= list_sum (map (fun t : Trajectory => length (traj_obs t)) ts)).
  { apply list_sum_at_least. eapply Forall_impl; [|exact Hall].
    now intros t (_ & _ & _ & H4). }
  split; [exact Ha|]. split; [exact Hr|].
  split; [destruct ts; [congruence | simpl in Hlen; lia]|].
  split; [lia|]. split; [exact Wo|]. split; [exact Wa|].
  exists evs, (concat (map (@traj_unscaled F) ts)).
  split; [cbn [updated w_trace]; rewrite Htr, <- app_assoc; reflexivity|].
  split; [exact Hsteps|].
  split; [rewrite length_concat_map; exact Hu | exact Wx].
Qed.

(** ** Edges *)

Lemma collect_trajectories_empty (fuel : nat) (episodes : Z) (w : World) :
  (episodes <= 0)%Z ->
  collect_trajectories fuel episodes w = (Raise ValueError, w).
Proof.
  intros Hle. unfold collect_trajectories.
  replace (Z.to_nat episodes) with 0 by lia. reflexivity.
Qed.



Lemma get_scale_offset_no_dimension (w : World) :
  fst (scaler_get (w_scaler w)) = [] \/ snd (scaler_get (w_scaler w)) = [] ->
  get_scale_offset w = (Raise IndexError, emit EvScalerGet w).
Proof.
  unfold get_scale_offset, bind, lift, ret, call_scaler_get,
    store_scaler_arrays.
  destruct (scaler_get (w_scaler w)) as [sc off]. cbn [fst snd].
  intros [->| ->]; [reflexivity|].
  destruct sc; reflexivity.
Qed.

(** X7.  When one of the arrays [scaler.get] returns is empty, the store
    into its last entry raises IndexError: the training episode and the
    evaluation episode stop right after the reset and the read of the
    scaler, before the policy is asked anything and before the environment
    is stepped. *)
Theorem episode_without_dimension (fuel : nat) (w : World) :
  fst (scaler_get (w_scaler w)) = [] \/ snd (scaler_get (w_scaler w)) = [] ->
  fst (run_train_episode fuel w) = Raise IndexError
  /\ w_trace (snd (run_train_episode fuel w))
     = w_trace w ++ [EvReset; EvScalerGet]
  /\ fst (run_evaluate_episode fuel w) = Raise IndexError
  /\ w_trace (snd (run_evaluate_episode fuel w))
     = w_trace w ++ [EvReset; EvScalerGet].
Proof.
  intros Hempty.
  assert (Htrain : exists w1, run_train_episode fuel w = (Raise IndexError, w1)
            /\ w_trace w1 = w_trace w ++ [EvReset; EvScalerGet]).
  { unfold run_train_episode. unfold bind at 1. unfold call_env_reset.
    destruct (env_reset (w_env w)) as [obs0 e0].
    unfold bind at 1.
    rewrite get_scale_offset_no_dimension by exact Hempty.
    eexists; split; [reflexivity|].
    cbn [emit w_trace]. now rewrite <- app_assoc. }
  assert (Heval : exists w2,
            run_evaluate_episode fuel w = (Raise IndexError, w2)
            /\ w_trace w2 = w_trace w ++ [EvReset; EvScalerGet]).
  { unfold run_evaluate_episode. unfold bind at 1. unfold call_env_reset.
    destruct (env_reset (w_env w)) as [obs0 e0].
    unfold bind at 1.
    rewrite get_scale_offset_no_dimension by exact Hempty.
    eexists; split; [reflexivity|].
    cbn [emit w_trace]. now rewrite <- app_assoc. }
  destruct Htrain as (w1 & -> & Hw1), Heval as (w2 & -> & Hw2).
  cbn [fst snd]. auto.
Qed.

(** ** The training loop *)

Lemma marks_app (evs1 evs2 : list Event) :
  marks (evs1 ++ evs2) = marks evs1 ++ marks evs2.
Proof. apply flat_map_app. Qed.

Lemma marks_steps mode (steps : list StepRecord) :
  marks (flat_map (step_events mode) steps) = [].
Proof.
  induction steps as [|s steps IH]; [reflexivity|].
  cbn [flat_map]. rewrite marks_app, IH. destruct mode; reflexivity.
Qed.

Lemma episode_marks mode (w : World) scale offset steps (w' : World) :
  episode_spec mode w scale offset steps w' ->
  exists evs, w_trace w' = w_trace w ++ evs /\ marks evs = [EpisodeStarted].
Proof.
  intros (_ & _ & _ & _ & Htr). eexists. split; [exact Htr|].
  rewrite marks_app, marks_steps. reflexivity.
Qed.

Lemma episodes_run_marks (fuel n : nat) (w : World) ts w' :
  episodes_run fuel n w ts w' ->
  exists evs,
    w_trace w' = w_trace w ++ evs /\ marks evs = repeat EpisodeStarted n.
Proof.
  induction 1 as [w|n w t w1 ts w' Hrun Hrest (evs & IHtr & IHm)].
  - exists []. now rewrite app_nil_r.
  - apply run_train_episode_ok in Hrun.
    destruct Hrun as (scale & offset & steps & Hspec & _).
    apply episode_marks in Hspec. destruct Hspec as (evs1 & Htr1 & Hm1).
    exists (evs1 ++ evs). rewrite IHtr, Htr1, app_assoc. split; [reflexivity|].
    rewrite marks_app, Hm1, IHm. reflexivity.
Qed.

Lemma collect_trajectories_marks (fuel : nat) (episodes : Z) (w : World)
    r w' :
  collect_trajectories fuel episodes w = (Ok r, w') ->
  exists evs,
    w_trace w' = w_trace w ++ evs
    /\ marks evs = repeat EpisodeStarted (Z.to_nat episodes) ++ [ScalerUpdated].
Proof.
  destruct r as [[obs actions] rewards]. intros Hrun.
  apply collect_trajectories_run in Hrun.
  destruct Hrun as (ts & wn & Hts & -> & _).
  apply episodes_run_marks in Hts. destruct Hts as (evs & Htr & Hm).
  eexists (evs ++ [_]). cbn [updated w_trace].
  rewrite Htr, app_assoc. split; [reflexivity|].
  rewrite marks_app, Hm. reflexivity.
Qed.

(** One batch of the training loop, with the worlds in between: [w1] when
    the batch is collected, [w2] when the agent has learned from it and the
    line is logged. *)
Lemma main_body_run (fuel : nat) (args : Args F) (episode : Z) (w : World)
    ep' w' :
  main_body fuel args episode w = (Ok ep', w') ->
  exists obs actions rewards (w1 w2 : World) adv dsr tr pl kl vl,
    collect_trajectories fuel (episodes_per_batch args) w
      = (Ok (obs, actions, rewards), w1)
    /\ ep' = (episode + episodes_per_batch args)%Z
    /\ w_env w2 = w_env w1
    /\ w_scaler w2 = w_scaler w1
    /\ w_agent w2
       = snd (value_learn
                (snd (policy_learn (snd (value_predict (w_agent w1) obs))
                        obs actions adv))
                obs dsr)
    /\ w_trace w2
       = w_trace w1
         ++ [EvValuePredict obs; EvPolicyLearn obs actions adv;
             EvValueLearn obs dsr;
             EvLogTrain ep' tr pl kl vl]
    /\ (episodes_per_batch args * 5 <> 0)%Z
    /\ if Z.eqb (ep' mod (episodes_per_batch args * 5)) 0
       then exists v w3,
              run_evaluate_episode fuel w2 = (Ok v, w3)
              /\ w' = emit (EvLogEval ep' v) w3
       else w' = w2.
Proof.
  unfold main_body. unfold bind at 1.
  destruct (collect_trajectories fuel (episodes_per_batch args) w)
    as [[[[obs actions] rewards]| |] w1] eqn:Hc; try discriminate.
  unfold bind at 1. unfold call_agent at 1.
  destruct (value_predict (w_agent w1) obs) as [pred a1] eqn:Hv.
  unfold bind at 1. unfold call_agent at 1. cbn [w_agent emit].
  match goal with |- context [policy_learn a1 obs actions ?adv] =>
    set (advantages := adv);
    destruct (policy_learn a1 obs actions advantages)
      as [[policy_loss kl] a2] eqn:Hp
  end.
  unfold bind at 1. unfold call_agent at 1. cbn [w_agent emit].
  match goal with |- context [value_learn a2 obs ?dsr] =>
    set (discount_sum := dsr);
    destruct (value_learn a2 obs discount_sum) as [value_loss a3] eqn:Hl
  end.
  unfold bind at 1. unfold log_info at 1.
  cbn [w_env w_agent w_scaler w_trace emit].
  intros Hrest.
  exists obs, actions, rewards, w1.
  match type of Hrest with
  | (if ?c1 then _ else _) ?w2 = _ =>
      exists w2, advantages, discount_sum,
        (float32_div_int (np_sum_float32 rewards) (episodes_per_batch args)),
        policy_loss, kl, value_loss;
      set (wl := w2) in *
  end.
  split; [reflexivity|].
  destruct (Z.eqb_spec (episodes_per_batch args * 5) 0) as [E0|E0];
    [discriminate|].
  assert (Hep : ep' = (episode + episodes_per_batch args)%Z).
  { destruct (Z.eqb (_ mod _) 0) in Hrest.
    - unfold bind at 1 in Hrest.
      destruct (run_evaluate_episode fuel wl) as [[v| |] w3];
        try discriminate.
      unfold bind, log_info, ret in Hrest. now injection Hrest as <- _.
    - unfold ret in Hrest. now injection Hrest as <- _. }
  subst ep'.
  split; [reflexivity|]. split; [reflexivity|]. split; [reflexivity|].
  split; [subst wl; cbn [w_agent]; rewrite Hv; cbn [snd]; rewrite Hp;
          cbn [snd]; rewrite Hl; reflexivity|].
  split; [subst wl; cbn [w_trace emit]; rewrite <- !app_assoc; reflexivity|].
  split; [exact E0|].
  destruct (Z.eqb (_ mod _) 0).
  - unfold bind at 1 in Hrest.
    destruct (run_evaluate_episode fuel wl) as [[v| |] w3];
      try discriminate.
    unfold bind, log_info, ret in Hrest. injection Hrest as <-.
    exists v, w3. split; reflexivity.
  - unfold ret in Hrest. now injection Hrest as <-.
Qed.

Lemma main_body_marks (fuel : nat) (args : Args F) (episode : Z) (w : World)
    ep' w' :
  main_body fuel args episode w = (Ok ep', w') ->
  ep' = (episode + episodes_per_batch args)%Z
  /\ exists evs,
       w_trace w' = w_trace w ++ evs
       /\ marks evs
          = repeat EpisodeStarted (Z.to_nat (episodes_per_batch args))
            ++ [ScalerUpdated; ValuesPredicted; PolicyLearned; ValueLearned;
                TrainLogged ep']
            ++ (if Z.eqb (ep' mod (episodes_per_batch args * 5)) 0
                then [EpisodeStarted; EvalLogged ep']
                else []).
Proof.
  intros Hrun. apply main_body_run in Hrun.
  destruct Hrun as (obs & actions & rewards & w1 & w2 & adv & dsr & tr & pl
                    & kl & vl & Hc & Hep & _ & _ & _ & Htr2 & _ & Hrest).
  split; [exact Hep|].
  apply collect_trajectories_marks in Hc. destruct Hc as (evs1 & Htr1 & Hm1).
  destruct (Z.eqb (ep' mod _) 0).
  - destruct Hrest as (v & w3 & Hev & ->).
    apply run_evaluate_episode_ok in Hev.
    destruct Hev as (scale & offset & steps & Hspec & _).
    apply episode_marks in Hspec. destruct Hspec as (evs3 & Htr3 & Hm3).
    eexists (evs1 ++ [_; _; _; _] ++ evs3 ++ [_]).
    cbn [emit w_trace]. rewrite Htr3, Htr2, Htr1, <- !app_assoc.
    split; [reflexivity|].
    rewrite !marks_app, Hm1, Hm3, <- !app_assoc. reflexivity.
  - subst w'. eexists (evs1 ++ [_; _; _; _]).
    rewrite Htr2, Htr1, <- !app_assoc. split; [reflexivity|].
    rewrite !marks_app, Hm1, <- !app_assoc. reflexivity.
Qed.

(** The count of episodes is a multiple of five batches at every fifth
    batch, and at no other. *)
Lemma evaluation_period (epb : Z) (i : nat) :
  (1 <= epb)%Z ->
  Z.eqb ((Z.of_nat i * epb) mod (epb * 5)) 0 = Nat.eqb (i mod 5) 0.
Proof.
  intros Hepb. rewrite (Z.mul_comm epb 5).
  rewrite Z.mul_mod_distr_r by lia.
  assert (Hi : (Z.of_nat i mod 5)%Z = Z.of_nat (i mod 5))
    by (rewrite Nat2Z.inj_mod; reflexivity).
  rewrite Hi.
  destruct (Nat.eqb_spec (i mod 5) 0) as [E|E].
  - rewrite E. reflexivity.
  - apply Z.eqb_neq. nia.
Qed.

Lemma for_range_main_body_marks (fuel : nat) (args : Args F) (n : nat) :
  (1 <= episodes_per_batch args)%Z ->
  forall (j : nat) (w : World) ep' w',
    for_range (main_body fuel args) n
      (Z.of_nat j * episodes_per_batch args)%Z w = (Ok ep', w') ->
    exists evs,
      w_trace w' = w_trace w ++ evs
      /\ marks evs
         = flat_map (batch_marks (episodes_per_batch args)) (seq (S j) n).
Proof.
  intros Hepb.
  induction n as [|n IH]; intros j w ep' w'; cbn [for_range].
  - intros [= _ <-]. exists []. now rewrite app_nil_r.
  - unfold bind at 1.
    destruct (main_body fuel args (Z.of_nat j * episodes_per_batch args) w)
      as [[e1| |] w1] eqn:Hb; try discriminate.
    apply main_body_marks in Hb. destruct Hb as (He1 & evs1 & Htr1 & Hm1).
    assert (Hnext : e1 = (Z.of_nat (S j) * episodes_per_batch args)%Z) by lia.
    rewrite Hnext in *. intros Hrest. apply IH in Hrest.
    destruct Hrest as (evs & Htr & Hm).
    exists (evs1 ++ evs). rewrite Htr, Htr1, app_assoc. split; [reflexivity|].
    rewrite marks_app, Hm, Hm1. cbn [seq flat_map]. f_equal.
    unfold batch_marks. rewrite evaluation_period by exact Hepb.
    reflexivity.
Qed.

(** X8.  With no episode per batch ([episodes_per_batch <= 0]) a batch of
    the training loop raises ValueError where it concatenates no array,
    before any call is made; the modulo by [episodes_per_batch * 5] that
    follows is not reached, so that the script does not divide by zero; and
    a loop that has an episode to run fails so at its first batch. *)
Theorem main_body_empty_batch (fuel : nat) (args : Args F) (episode : Z)
    (w : World) :
  (episodes_per_batch args <= 0)%Z ->
  main_body fuel args episode w = (Raise ValueError, w)
  /\ ((0 < num_episodes args)%Z ->
      forall loop_fuel,
        main_loop (S loop_fuel) fuel args w = (Raise ValueError, w)).
Proof.
  intros Hepb.
  assert (Hbody : forall episode,
            main_body fuel args episode w = (Raise ValueError, w)).
  { intros e. unfold main_body. unfold bind at 1.
    now rewrite collect_trajectories_empty by exact Hepb. }
  split; [apply Hbody|].
  intros Hnum loop_fuel. unfold main_loop. cbn [while].
  replace (Z.ltb 0 (num_episodes args)) with true
    by (symmetry; apply Z.ltb_lt; exact Hnum).
  unfold bind at 1. now rewrite Hbody.
Qed.

(** X9.  With no episode to run ([num_episodes <= 0]) the training loop
    returns at once, whatever the loop fuel, without a call; the script is
    then its warm-up batch of five episodes alone. *)
Theorem main_no_episode (loop_fuel fuel : nat) (args : Args F) (w : World) :
  (num_episodes args <= 0)%Z ->
  main_loop loop_fuel fuel args w = (Ok 0%Z, w)
  /\ main loop_fuel fuel args w
     = bind (collect_trajectories fuel 5) (fun _ => ret tt) w.
Proof.
  intros Hnum.
  assert (Hloop : forall w1 : World,
            main_loop loop_fuel fuel args w1 = (Ok 0%Z, w1)).
  { intros w1. unfold main_loop. apply while_finished.
    apply Z.ltb_ge. exact Hnum. }
  split; [apply Hloop|].
  unfold main. apply bind_ext_ok. intros r w1 _.
  unfold bind at 1. rewrite Hloop. reflexivity.
Qed.

(** X10.  The schedule of a run of the script that completes, with at least
    one episode per batch: five warm-up episodes and an update of the
    scaler, from which the agent does not learn; then, [batches_needed]
    times over, the episodes of a batch, the update of the scaler, the
    prediction of the values, the two learning calls and the log line with
    the count of episodes so far; and after every fifth batch, no other,
    one evaluation episode and its log line. *)
Theorem main_schedule (loop_fuel fuel : nat) (args : Args F) (w w' : World) :
  (1 <= episodes_per_batch args)%Z ->
  batches_needed args <= loop_fuel ->
  main loop_fuel fuel args w = (Ok tt, w') ->
  exists evs,
    w_trace w' = w_trace w ++ evs
    /\ marks evs
       = repeat EpisodeStarted 5 ++ [ScalerUpdated]
         ++ flat_map (batch_marks (episodes_per_batch args))
              (seq 1 (batches_needed args)).
Proof.
  intros Hepb Hfuel. unfold main. unfold bind at 1.
  destruct (collect_trajectories fuel 5 w) as [[r| |] w1] eqn:Hc;
    try discriminate.
  apply collect_trajectories_marks in Hc. destruct Hc as (evs1 & Htr1 & Hm1).
  unfold bind at 1.
  destruct (main_loop loop_fuel fuel args w1) as [[ep| |] w2] eqn:Hloop;
    try discriminate.
  unfold ret. intros [= <-].
  unfold main_loop in Hloop.
  rewrite (@main_loop_from _ _ _ _ _ _ _ _ _ _ fuel args (batches_needed args)
             Hepb loop_fuel 0%Z w1) in Hloop;
    [|unfold batches_needed; do 2 f_equal; lia|exact Hfuel].
  apply (for_range_main_body_marks fuel args (batches_needed args) Hepb 0)
    in Hloop.
  destruct Hloop as (evs2 & Htr2 & Hm2).
  exists (evs1 ++ evs2). rewrite Htr2, Htr1, app_assoc. split; [reflexivity|].
  rewrite marks_app, Hm1, Hm2, <- app_assoc. reflexivity.
Qed.


End CallFacts.

(** ** Exact arithmetic, further *)

Lemma exact_clip_in_range (x : Qc) :
  (- (1) <= x)%Qc -> (x <= 1)%Qc -> clip1 neg_one f1 x = x.
Proof.
  intros Hlo Hhi. unfold clip1, neg_one. cbn [fltb fsub f0 f1 float_exact].
  replace (0 - 1)%Qc with (- (1))%Qc by ring.
  destruct (x ?= - (1))%Qc eqn:C1.
  - destruct (1 ?= x)%Qc eqn:C2; try reflexivity.
    apply Qclt_alt in C2. exfalso. exact (Qcle_not_lt _ _ Hhi C2).
  - apply Qclt_alt in C1. exfalso. exact (Qcle_not_lt _ _ Hlo C1).
  - destruct (1 ?= x)%Qc eqn:C2; try reflexivity.
    apply Qclt_alt in C2. exfalso. exact (Qcle_not_lt _ _ Hhi C2).
Qed.

(** X12.  In exact arithmetic the advantages handed to [policy_learn],
    normalized as in lines 137-138, have mean zero, whatever the standard
    deviation they were divided by, when there is an advantage at all. *)
Theorem normalize_advantages_mean_zero (FS : FloatSqrt Qc)
    (advantages : list Qc) :
  advantages <> [] ->
  np_mean (astype_float32 (normalize_advantages advantages)) = 0%Qc.
Proof.
  intros Hne. unfold astype_float32, normalize_advantages.
  cbn [f32 float_exact]. rewrite map_id.
  apply ExactFacts.exact_normalized_mean_zero. exact Hne.
Qed.

(** X13.  In exact arithmetic [np.clip(action, -1.0, 1.0)] of the training
    step keeps the shape of the action, puts every entry in [-1, 1], and
    leaves the entries that were there as they are. *)
Theorem np_clip_exact (action : list Qc) :
  Forall2 (fun x y => (- (1) <= y)%Qc /\ (y <= 1)%Qc
                      /\ ((- (1) <= x)%Qc -> (x <= 1)%Qc -> y = x))
    action (np_clip action neg_one f1).
Proof.
  induction action as [|x action IH]; [constructor|].
  cbn [np_clip map]. constructor; [|exact IH].
  destruct (ExactFacts.exact_clip_bounds x) as [Hlo Hhi].
  split; [exact Hlo|]. split; [exact Hhi|]. apply exact_clip_in_range.
Qed.

(** ** Runs for the properties above *)

(** A training episode of three steps. *)
Lemma run_train_episode_shapes_run :
  exists t w',
    run_train_episode 10 (world64 3) = (Ok t, w')
    /\ 1 <= length (traj_obs t) <= 10.
Proof.
  destruct (run_train_episode 10 (world64 3)) as [[t| |] w'] eqn:Hrun.
  - exists t, w'. split; [reflexivity|].
    pose proof Hrun as Hshape. apply run_train_episode_shapes in Hshape.
    destruct Hshape as (_ & _ & _ & H & _). exact H.
  - vm_compute in Hrun. discriminate Hrun.
  - vm_compute in Hrun. discriminate Hrun.
Defined.

(** A batch of two episodes of three steps. *)
Lemma collect_trajectories_shapes_run :
  exists obs actions rewards w',
    collect_trajectories 10 2 (world64 3) = (Ok (obs, actions, rewards), w')
    /\ length actions = length obs
    /\ length rewards = length obs.
Proof.
  destruct (collect_trajectories 10 2 (world64 3))
    as [[[[obs actions] rewards]| |] w'] eqn:Hrun.
  - exists obs, actions, rewards, w'. split; [reflexivity|].
    pose proof Hrun as Hshape. apply collect_trajectories_shapes in Hshape.
    destruct Hshape as (Ha & Hr & _). split; assumption.
  - vm_compute in Hrun. discriminate Hrun.
  - vm_compute in Hrun. discriminate Hrun.
Defined.

(** A scaler built for observations of no entry. *)
Lemma episode_without_dimension_run :
  fst (run_train_episode 10 Edges.world_no_dimension) = Raise IndexError
  /\ fst (run_evaluate_episode 10 Edges.world_no_dimension)
     = Raise IndexError.
Proof.
  assert (Hempty : fst (scaler_get (w_scaler Edges.world_no_dimension)) = []
                   \/ snd (scaler_get (w_scaler Edges.world_no_dimension)) = [])
    by (left; reflexivity).
  destruct (episode_without_dimension 10 Edges.world_no_dimension Hempty)
    as (Ht & _ & He & _).
  split; assumption.
Defined.

(** [--episodes_per_batch 0] *)
Lemma main_body_empty_batch_run :
  main_loop 1 10 Edges.args_empty_batches (world64 3)
  = (Raise ValueError, world64 3).
Proof.
  assert (Hepb : (episodes_per_batch Edges.args_empty_batches <= 0)%Z)
    by (vm_compute; discriminate).
  assert (Hnum : (0 < num_episodes Edges.args_empty_batches)%Z)
    by reflexivity.
  destruct (main_body_empty_batch 10 Edges.args_empty_batches 0 (world64 3)
              Hepb) as [_ Hloop].
  exact (Hloop Hnum 0).
Defined.

(** [--num_episodes 0] *)
Lemma main_no_episode_run :
  main_loop 3 10 Edges.args_no_episode (world64 3) = (Ok 0%Z, world64 3).
Proof.
  assert (Hnum : (num_episodes Edges.args_no_episode <= 0)%Z)
    by (vm_compute; discriminate).
  destruct (main_no_episode 3 10 Edges.args_no_episode (world64 3) Hnum)
    as [Hloop _].
  exact Hloop.
Defined.

(** Twelve batches of one episode: evaluations after the fifth and the
    tenth. *)
Lemma main_schedule_run :
  exists w' evs,
    main 12 10 Edges.args_twelve (world64 3) = (Ok tt, w')
    /\ w_trace w' = evs
    /\ marks evs
       = repeat EpisodeStarted 5 ++ [ScalerUpdated]
         ++ flat_map (batch_marks 1) (seq 1 12).
Proof.
  assert (Hepb : (1 <= episodes_per_batch Edges.args_twelve)%Z)
    by (vm_compute; discriminate).
  assert (Hfuel : batches_needed Edges.args_twelve <= 12)
    by (vm_compute; apply le_n).
  destruct (main 12 10 Edges.args_twelve (world64 3)) as [[[]| |] w'] eqn:Hrun.
  - destruct (main_schedule _ _ _ Hepb Hfuel Hrun) as (evs & Htr & Hm).
    exists w', evs. split; [reflexivity|]. split; [exact Htr|exact Hm].
  - vm_compute in Hrun. discriminate Hrun.
  - vm_compute in Hrun. discriminate Hrun.
Defined.


(** Three advantages. *)
Lemma normalize_advantages_mean_zero_run :
  np_mean (astype_float32
             (normalize_advantages (FS := {| fsqrt := fun x : Qc => x |})
                [f0; f1; f1 +^ f1]))
  = 0%Qc.
Proof.
  apply normalize_advantages_mean_zero. discriminate.
Defined.
